(** * Polycube enumeration: a shallow embedding of [enumeratePolycubes.py]

    The development follows the source file function by function:
    the subset unranker, the taxicab metric and the face-adjacency
    matrix, the connectivity checks delegated to the graph library, the
    two symmetry tests, the enumeration driver and the brute-force
    spanning-tree search.

    Conventions.
    - Python integers are unbounded.  Ranks and binomial coefficients
      are modelled in [N], loop counters and subset elements in [nat],
      lattice coordinates in [Z].
    - A raised exception ([AssertionError], [IndexError]) is [None].
    - A Python [set] of coordinates is a [gset]. *)

From Stdlib Require Import ZArith NArith Lia DecimalString.
From stdpp Require Import base numbers option list sorting gmap sets strings.
From Stdlib Require DecimalNat.

Local Open Scope nat_scope.

(** ** Binomial coefficients *)

(** [int(scipy.special.binom(x, j))] at natural arguments: the exact
    binomial coefficient.  (The library works in floating point; the
    model takes the exact value it approximates.)  The multiplicative
    form keeps evaluation fast. *)
Fixpoint binom (x j : nat) : N :=
  match j with
  | 0 => 1%N
  | S j' => (binom x j' * N.of_nat (x - j') / N.of_nat j)%N
  end.

(** Pascal's triangle, the textbook definition [binom] is compared to. *)
Fixpoint choose (x j : nat) : nat :=
  match j, x with
  | 0, _ => 1
  | S _, 0 => 0
  | S j', S x' => choose x' j' + choose x' j
  end.

(** ** [unrank_kSubset] *)

(** The inner [while c > r: x -= 1] loop for one position, with
    [c = binom(x, j)].  Since [j >= 1] at every call and [binom 0 j = 0],
    the loop has stopped by [x = 0]; the [0] branch is never taken
    (lemma [descend_zero]). *)
Fixpoint descend (x j : nat) (r : N) : nat :=
  if (r <? binom x j)%N then
    match x with
    | 0 => 0
    | S x' => descend x' j r
    end
  else x.

(** One turn of [for i in range(1, k+1)]: the loop state is [(T, x, r)]. *)
Definition unrank_step (k : nat) (st : list nat * nat * N) (i : nat)
  : list nat * nat * N :=
  let '(T, x, r) := st in
  let x' := descend x (k + 1 - i) r in
  (<[i - 1 := x']> T, x', (r - binom x' (k + 1 - i))%N).

Definition unrank_kSubset (r : N) (k n : nat) : list nat :=
  (foldl (unrank_step k) (replicate k 0, n, r) (seq 1 k)).1.1.

(** The same computation, read off position by position: [j] positions
    remain, the search resumes from [x]. *)
Fixpoint unrank_from (j x : nat) (r : N) : list nat :=
  match j with
  | 0 => []
  | S j' =>
      let x' := descend x j r in
      x' :: unrank_from j' x' (r - binom x' j)%N
  end.

(** The rank of a decreasing list in the combinatorial number system. *)
Fixpoint rank_of (l : list nat) : N :=
  match l with
  | [] => 0%N
  | c :: l' => (binom c (length l) + rank_of l')%N
  end.

(** A strictly decreasing list: the canonical listing of a finite set. *)
Definition decreasing (l : list nat) : Prop := StronglySorted gt l.



(** ** Error-propagating loops *)

(** A [for] loop whose body may raise: the exception ends the loop. *)
Fixpoint foldlM {A B : Type} (f : B -> A -> option B) (b : B) (l : list A)
  : option B :=
  match l with
  | [] => Some b
  | a :: l' => b' ← f b a; foldlM f b' l'
  end.

(** A [for] loop that leaves with [True] at the first hit and falls
    through to [False]; the test itself may raise. *)
Fixpoint search {A : Type} (f : A -> option bool) (l : list A) : option bool :=
  match l with
  | [] => Some false
  | a :: l' => b ← f a; if b : bool then Some true else search f l'
  end.

(** [range(n)] for a natural [n]. *)
Definition py_range (n : N) : list N := map N.of_nat (seq 0 (N.to_nat n)).

(** [l[i]] with Python's negative indices; out of range is [IndexError]. *)
Definition py_index {A : Type} (l : list A) (i : Z) : option A :=
  if decide (0 ≤ i)%Z then l !! Z.to_nat i
  else if decide (- Z.of_nat (length l) ≤ i)%Z
       then l !! Z.to_nat (Z.of_nat (length l) + i)
       else None.

(** ** Coordinates, [taxi_distance], [polycube_to_graph] *)

Abbreviation coord := (Z * Z * Z)%type.

(** A coordinate tuple seen as the sequence [taxi_distance] iterates. *)
Definition coord_list (c : coord) : list Z := [c.1.1; c.1.2; c.2].

(** [coord[i]] for [i] in [0..2], the only indices the source uses. *)
Definition axis (c : coord) (i : nat) : Z :=
  match i with
  | 0 => c.1.1
  | 1 => c.1.2
  | _ => c.2
  end.

(** The [assert] is the first statement; the loop adds [np.abs(x - y)],
    the absolute value of an integer difference, over [zip(v1, v2)]. *)
Definition taxi_distance (v1 v2 : list Z) : option Z :=
  if decide (length v1 = length v2)
  then Some (foldl (fun d xy => (d + Z.abs (xy.1 - xy.2))%Z) 0%Z (zip v1 v2))
  else None.


(** An adjacency matrix: a list of rows. *)
Abbreviation matrix := (list (list bool)).

Definition entry (A : matrix) (i j : nat) : bool :=
  default false (row ← A !! i; row !! j).

Definition polycube_to_graph (p : list coord) : option matrix :=
  mapM (fun pi =>
    mapM (fun pj =>
      d ← taxi_distance (coord_list pi) (coord_list pj);
      Some (bool_decide (d = 1%Z))) p) p.

(** ** The graph library

    [networkx] is not part of the repository; the three queries the
    source makes are modelled by their documented meaning on an
    undirected graph over the nodes [0 .. order-1]. *)

Record Graph := { order : nat; edge : nat -> nat -> bool }.

(** [nx.from_numpy_matrix(A)]: a non-zero entry [A[i,j]] is the
    undirected edge [{i, j}]. *)
Definition from_numpy_matrix (A : matrix) : Graph :=
  {| order := length A; edge := fun i j => entry A i j || entry A j i |}.

(** One breadth-first round: the nodes of [R] and their neighbours. *)
Definition expand (G : Graph) (R : list nat) : list nat :=
  List.filter
    (fun v => existsb (Nat.eqb v) R || existsb (fun u => edge G u v) R)
    (seq 0 (order G)).

(** [v] is reached from [u] within [order G] rounds. *)
Definition reachable (G : Graph) (u v : nat) : bool :=
  existsb (Nat.eqb v) (Nat.iter (order G) (expand G) [u]).

(** [nx.number_connected_components(G)]: one component per node that no
    smaller node reaches. *)
Definition number_connected_components (G : Graph) : nat :=
  length (List.filter
            (fun v => forallb (fun u => negb (reachable G u v)) (seq 0 v))
            (seq 0 (order G))).

(** [nx.is_connected(G)] on a graph with at least one node. *)
Definition is_connected (G : Graph) : bool :=
  forallb (reachable G 0) (seq 0 (order G)).

(** [G.number_of_edges()]: unordered pairs, a self-loop counts once. *)
Definition number_of_edges (G : Graph) : nat :=
  length (List.filter (fun ij => (ij.1 <=? ij.2) && edge G ij.1 ij.2)
            (list_prod (seq 0 (order G)) (seq 0 (order G)))).

(** [nx.is_tree(G)]: raises on the graph without nodes. *)
Definition is_tree (G : Graph) : option bool :=
  if decide (order G = 0) then None
  else Some ((order G - 1 =? number_of_edges G) && is_connected G).

Definition num_regions (p : list coord) : option nat :=
  A ← polycube_to_graph p;
  Some (number_connected_components (from_numpy_matrix A)).

(** ** [checkTree] and [brute_force_trees] *)

Abbreviation edge_t := (nat * nat)%type.

(** [np.zeros((n, n))]. *)
Definition zeros (n : nat) : matrix := replicate n (replicate n false).

(** [A[edge] = 1]; an endpoint outside [0..n-1] is an [IndexError]. *)
Definition set_entry (A : matrix) (e : edge_t) : option matrix :=
  row ← A !! e.1;
  _ ← row !! e.2;
  Some (<[e.1 := <[e.2 := true]> row]> A).

Definition checkTree (edgeList : list edge_t) (n : nat) : option bool :=
  A ← foldlM set_entry (zeros n) edgeList;
  is_tree (from_numpy_matrix A).

(** [for j in subset[::-1]: edgeSubset.append(E[j-1])]. *)
Definition edge_subset (E : list edge_t) (subset : list nat)
  : option (list edge_t) :=
  mapM (fun j => py_index E (Z.of_nat j - 1)) (reverse subset).

Definition brute_force_step (n : nat) (E : list edge_t)
    (validTrees : list (list edge_t)) (i : N) : option (list (list edge_t)) :=
  edgeSubset ← edge_subset E (unrank_kSubset i (n - 1) (length E));
  t ← checkTree edgeSubset n;
  Some (if t : bool then validTrees ++ [edgeSubset] else validTrees).

(** For [n = 0] the library's [binom(m, -1)] is [0]: the loop body never
    runs. *)
Definition brute_force_trees (n : nat) (E : list edge_t)
  : option (list (list edge_t)) :=
  match n with
  | 0 => Some []
  | S _ => foldlM (brute_force_step n E) [] (py_range (binom (length E) (n - 1)))
  end.

(** The subset of edges built for rank [i]: the first statement of the
    loop body together with the inner loop. *)
Definition built_subset (n : nat) (E : list edge_t) (i : N)
  : option (list edge_t) :=
  edge_subset E (unrank_kSubset i (n - 1) (length E)).

(** [(j - 1) mod m]: the position [E[j-1]] reads, for [0 <= j < m]. *)
Definition edge_index (m j : nat) : nat := (j + m - 1) mod m.

(** The edge the inner loop appends for the subset element [j]. *)
Definition edge_of (E : list edge_t) (j : nat) : edge_t :=
  default (0, 0) (E !! edge_index (length E) j).

(** The undirected graph on [n] nodes with the edges of [l]. *)
Definition edges_graph (n : nat) (l : list edge_t) : Graph :=
  {| order := n;
     edge := fun i j => bool_decide ((i, j) ∈ l) || bool_decide ((j, i) ∈ l) |}.

(** An [n] by [n] matrix. *)
Definition well_shaped (n : nat) (A : matrix) : Prop :=
  length A = n /\ Forall (fun row => length row = n) A.

(** [E] joins [a] and [b], in one orientation or the other. *)
Definition has_edge (E : list edge_t) (a b : nat) : Prop :=
  (a, b) ∈ E \/ (b, a) ∈ E.

(** An edge with its smaller endpoint first. *)
Definition norm (e : edge_t) : edge_t := (Nat.min e.1 e.2, Nat.max e.1 e.2).

(** [E] forms a simple path on the [m] nodes [0 .. m-1]: it has [m - 1]
    edges, and some ordering of all the nodes has each node joined to
    the next. *)
Definition is_simple_path (m : nat) (E : list edge_t) : Prop :=
  length E = m - 1
  /\ exists vs : list nat,
       vs ≡ₚ seq 0 m
       /\ forall i a b, vs !! i = Some a -> vs !! S i = Some b -> has_edge E a b.

(** [E] forms the 3-cycle on the nodes [0, 1, 2]. *)
Definition is_triangle (E : list edge_t) : Prop :=
  length E = 3 /\ has_edge E 0 1 /\ has_edge E 1 2 /\ has_edge E 0 2.

(** [checkTree] with its exception read as "no tree". *)
Definition is_spanning_tree (n : nat) (l : list edge_t) : Prop :=
  checkTree l n = Some true.

(** ** The symmetry tests *)

(** [reflectPoints]: the maximum of each column of the transposed
    coordinate list, and the empty list for the empty polycube. *)
Definition max_of (z : Z) (l : list Z) : Z := foldl Z.max z l.

Definition reflectPoints (p2 : list coord) : list Z :=
  match p2 with
  | [] => []
  | c :: p =>
      [max_of c.1.1 (map (fun q : coord => q.1.1) p);
       max_of c.1.2 (map (fun q : coord => q.1.2) p);
       max_of c.2 (map (fun q : coord => q.2) p)]
  end.

(** [itertools.permutations('012')] and [itertools.product('01', repeat=3)],
    in the order the library yields them. *)
Definition permutations3 : list (nat * nat * nat) :=
  [(0, 1, 2); (0, 2, 1); (1, 0, 2); (1, 2, 0); (2, 0, 1); (2, 1, 0)].

Definition coorReflect3 : list (bool * bool * bool) :=
  [(false, false, false); (false, false, true); (false, true, false);
   (false, true, true); (true, false, false); (true, false, true);
   (true, true, false); (true, true, true)].

(** [itertools.permutations('01')] and [itertools.product('01', repeat=2)]. *)
Definition permutations2 : list (nat * nat) := [(0, 1); (1, 0)].

Definition coorReflect2 : list (bool * bool) :=
  [(false, false); (false, true); (true, false); (true, true)].

(** The body of the innermost loop of [check_all_isomorphism]: permute,
    then reflect. *)
Definition map_all (ijk : nat * nat * nat) (abc : Z * Z * Z)
    (r : bool * bool * bool) (c : coord) : coord :=
  let x := axis c ijk.1.1 in
  let y := axis c ijk.1.2 in
  let z := axis c ijk.2 in
  let x := if r.1.1 then (abc.1.1 - x)%Z else x in
  let y := if r.1.2 then (abc.1.2 - y)%Z else y in
  let z := if r.2 then (abc.2 - z)%Z else z in
  (x, y, z).

(** The same for [check_poly_isomorphism]: the third axis is kept. *)
Definition map_poly (ij : nat * nat) (ab : Z * Z) (r : bool * bool)
    (c : coord) : coord :=
  let x := axis c ij.1 in
  let y := axis c ij.2 in
  let z := axis c 2 in
  let x := if r.1 then (ab.1 - x)%Z else x in
  let y := if r.2 then (ab.2 - y)%Z else y in
  (x, y, z).

(** [newCoordSet] after the loop over [coordinateSet]. *)
Definition newCoordSet (f : coord -> coord) (coordinateSet : list coord)
  : gset coord :=
  list_to_set (map f coordinateSet).

Definition check_all_isomorphism (p1 p2 : list coord) : option bool :=
  let fixedCoordinates : gset coord := list_to_set p1 in
  let coordinateSet := p2 in
  let rp := reflectPoints coordinateSet in
  search (fun ijk : nat * nat * nat =>
    a ← rp !! ijk.1.1;
    b ← rp !! ijk.1.2;
    c ← rp !! ijk.2;
    search (fun reflect =>
      Some (bool_decide
              (newCoordSet (map_all ijk (a, b, c) reflect) coordinateSet
               = fixedCoordinates)))
      coorReflect3)
    permutations3.

Definition check_poly_isomorphism (p1 p2 : list coord) : option bool :=
  let fixedCoordinates : gset coord := list_to_set p1 in
  let coordinateSet := p2 in
  let rp := reflectPoints coordinateSet in
  search (fun ij : nat * nat =>
    a ← rp !! ij.1;
    b ← rp !! ij.2;
    search (fun reflect =>
      Some (bool_decide
              (newCoordSet (map_poly ij (a, b) reflect) coordinateSet
               = fixedCoordinates)))
      coorReflect2)
    permutations2.

(** *** Bounding boxes and the inverse of a transform *)

(** [m] is the least, respectively greatest, value the coordinate set
    [S] takes along axis [i]. *)
Definition axis_min (S : gset coord) (i : nat) (m : Z) : Prop :=
  (exists c, c ∈ S /\ axis c i = m) /\ forall c, c ∈ S -> (m <= axis c i)%Z.

Definition axis_max (S : gset coord) (i : nat) (m : Z) : Prop :=
  (exists c, c ∈ S /\ axis c i = m) /\ forall c, c ∈ S -> (axis c i <= m)%Z.

(** The minimum along each of the three axes is [0]. *)
Definition origin_translated (S : gset coord) : Prop :=
  forall i, i < 3 -> axis_min S i 0%Z.

(** Component [m] of a triple. *)
Definition pick {A : Type} (t : A * A * A) (m : nat) : A :=
  match m with
  | 0 => t.1.1
  | 1 => t.1.2
  | _ => t.2
  end.

(** The inverse of an axis permutation of [permutations3]. *)
Definition inv3 (ijk : nat * nat * nat) : nat * nat * nat :=
  match ijk with
  | (1, 2, 0) => (2, 0, 1)
  | (2, 0, 1) => (1, 2, 0)
  | _ => ijk
  end.

(** A triple rearranged by an axis permutation. *)
Definition permute3 {A : Type} (ijk : nat * nat * nat) (t : A * A * A)
  : A * A * A :=
  (pick t ijk.1.1, pick t ijk.1.2, pick t ijk.2).

(** ** [convert_to_decimal] and the enumeration driver *)

(** [int(np.ceil(np.log10(num+1)/np.log10(b)))], with the quotient of
    logarithms taken at its exact value: the least [d] with
    [num + 1 <= b^d], searched upwards from [d]. *)
Fixpoint digits_from (fuel b num d : nat) : nat :=
  match fuel with
  | 0 => d
  | S fuel' => if num + 1 <=? b ^ d then d else digits_from fuel' b num (S d)
  end.

Definition numDigits (b num : nat) : nat := digits_from (S num) b num 0.

(** [str(d)] for a natural number. *)
Definition str (d : nat) : string := NilZero.string_of_uint (Nat.to_uint d).

(** The [for i in range(numDigits-1, -1, -1)] loop; the state is
    [(returnStr, num)]. *)
Definition convert_step (b : nat) (st : string * nat) (i : nat) : string * nat :=
  let '(returnStr, num) := st in
  let digitToAdd := num / b ^ i in
  (returnStr +:+ str digitToAdd, num - b ^ i * digitToAdd).

Definition convert_to_decimal (b num : nat) : string :=
  if decide (num = 0) then "0"
  else (foldl (convert_step b) (""%string, num)
          (reverse (seq 0 (numDigits b num)))).1.

(** [s.zfill(width)] on an unsigned digit string. *)
Definition zfill (width : nat) (s : string) : string :=
  String.concat "" (replicate (width - String.length s) "0"%string) +:+ s.

(** [int(x)] for a one-character string. *)
Definition int_of_char (c : Ascii.ascii) : option Z :=
  let v := Ascii.nat_of_ascii c in
  if decide (48 ≤ v ≤ 57) then Some (Z.of_nat (v - 48)) else None.

(** The coordinate tuples of this program are triples; a digit string of
    another length never arises below rank [125] (lemma
    [decode_rank_total]). *)
Definition tuple3 (l : list Z) : option coord :=
  match l with
  | [x; y; z] => Some (x, y, z)
  | _ => None
  end.

(** One element of [coordinateRanks] taken through
    [convert_to_decimal], [zfill], the split into characters and [int]. *)
Definition decode_rank (x : nat) : option coord :=
  let coordinateString := zfill 3 (convert_to_decimal 5 x) in
  digits ← mapM int_of_char (String.list_ascii_of_string coordinateString);
  tuple3 digits.

(** [np.min] of a list; the empty list raises. *)
Definition np_min (l : list Z) : option Z :=
  match l with
  | [] => None
  | z :: l' => Some (foldl Z.min z l')
  end.

(** The translation that handles translational symmetries. *)
Definition translate (coordinates : list coord) : option (list coord) :=
  minX ← np_min (map (fun x : coord => x.1.1) coordinates);
  minY ← np_min (map (fun x : coord => x.1.2) coordinates);
  minZ ← np_min (map (fun x : coord => x.2) coordinates);
  Some (map (fun x : coord => (x.1.1 - minX, x.1.2 - minY, x.2 - minZ)%Z)
          coordinates).

(** The candidate of rank [r]: [None] when an exception is raised,
    [Some None] when the connectivity filter rejects it ([continue]),
    [Some (Some c)] with the translated coordinates otherwise. *)
Definition candidate (k : nat) (r : N) : option (option (list coord)) :=
  let coordinateRanks := unrank_kSubset r k 125 in
  coordinates ← mapM decode_rank coordinateRanks;
  regions ← num_regions coordinates;
  if decide (regions ≠ 1) then Some None
  else coordinates ← translate coordinates; Some (Some coordinates).

(** The body of [for r in range(totalPossibilities)]. *)
Definition polycube_step (k : nat) (returnUnique : list (list coord)) (r : N)
  : option (list (list coord)) :=
  c ← candidate k r;
  match c with
  | None => Some returnUnique
  | Some coordinates =>
      found ← search (fun alreadyAdded =>
                 check_poly_isomorphism alreadyAdded coordinates) returnUnique;
      Some (if found : bool then returnUnique
            else returnUnique ++ [coordinates])
  end.

Definition get_polycubes_of_size (k : nat) : option (list (list coord)) :=
  foldlM (polycube_step k) [] (py_range (binom 125 k)).

(** ** What the driver promises *)

(** The Manhattan distance of two coordinate triples, and the matrix
    [polycube_to_graph] fills in. *)
Definition manhattan (p q : coord) : Z :=
  (Z.abs (p.1.1 - q.1.1) + Z.abs (p.1.2 - q.1.2) + Z.abs (p.2 - q.2))%Z.

Definition face_matrix (p : list coord) : matrix :=
  map (fun pi => map (fun pj => bool_decide (manhattan pi pj = 1%Z)) p) p.

(** The base-5 digits of a rank below [125]. *)
Definition digits5 (x : nat) : coord :=
  (Z.of_nat (x / 25), Z.of_nat (x / 5 mod 5), Z.of_nat (x mod 5)).

(** A canonical polycube of size [k]: [k] distinct cubes, one region,
    minimum [0] along each axis. *)
Definition canonical (k : nat) (p : list coord) : Prop :=
  length p = k /\ NoDup p /\ num_regions p = Some 1
  /\ origin_translated (list_to_set p).

(** No test between two distinct entries of the catalog succeeds. *)
Definition pairwise_distinct (L : list (list coord)) : Prop :=
  forall i j p q, i <> j -> L !! i = Some p -> L !! j = Some q ->
    check_poly_isomorphism p q = Some false.

(** [L] lists, in rank order, the candidates of the ranks [rs], and
    every connected candidate of a rank below [bound] is matched by an
    entry found at the same or an earlier rank. *)
Definition first_representatives (k : nat) (bound : N) (L : list (list coord))
  : Prop :=
  exists rs : list N,
    StronglySorted N.lt rs
    /\ Forall (fun r => (r < bound)%N) rs
    /\ Forall2 (fun r p => candidate k r = Some (Some p)) rs L
    /\ forall r c, (r < bound)%N -> candidate k r = Some (Some c) ->
         exists i r' p, rs !! i = Some r' /\ L !! i = Some p
                        /\ (r' <= r)%N
                        /\ check_poly_isomorphism p c = Some true.

Definition canonical_catalog (k : nat) (bound : N) (L : list (list coord))
  : Prop :=
  Forall (canonical k) L /\ pairwise_distinct L
  /\ first_representatives k bound L.

(** ** The shapes of the source's test driver *)

Definition d1 : list coord :=
  [(0, 0, 0); (0, 0, 1); (0, 1, 1); (0, 1, 2); (1, 1, 1); (1, 1, 2)]%Z.
Definition d2 : list coord :=
  [(0, 0, 0); (1, 0, 0); (2, 0, 0); (3, 0, 0); (4, 0, 0); (5, 0, 0)]%Z.
Definition d3 : list coord :=
  [(0, 0, 0); (0, 1, 0); (0, 2, 0); (0, 3, 0); (0, 4, 0); (0, 5, 0)]%Z.
Definition d4 : list coord :=
  [(0, 0, 0); (1, 0, 0); (1, 1, 0); (2, 1, 0); (1, 1, 1); (2, 1, 1)]%Z.

(** ** Composition of the symmetry moves *)

(** The axis permutation that applies [ijk2] and then [ijk1]. *)
Definition compose3 (ijk1 ijk2 : nat * nat * nat) : nat * nat * nat :=
  permute3 ijk1 ijk2.

(** The reflections of the composed move: those of the second move,
    together with those of the first carried along its permutation. *)
Definition compose_flags (ijk1 : nat * nat * nat) (r1 r2 : bool * bool * bool)
  : bool * bool * bool :=
  (xorb r1.1.1 (pick r2 ijk1.1.1), xorb r1.1.2 (pick r2 ijk1.1.2),
   xorb r1.2 (pick r2 ijk1.2)).

(** ** Digit strings *)

(** A string as the list of its characters. *)
Definition chars (s : string) : list Ascii.ascii := String.list_ascii_of_string s.




(** ** The box of the enumeration *)

(** A cell of the 5x5x5 box. *)
Definition in_box (c : coord) : Prop :=
  (0 <= c.1.1 <= 4)%Z /\ (0 <= c.1.2 <= 4)%Z /\ (0 <= c.2 <= 4)%Z.

(** The coordinates built for rank [r], before the connectivity filter. *)
Definition raw_coordinates (k : nat) (r : N) : option (list coord) :=
  mapM decode_rank (unrank_kSubset r k 125).

(** ** [get_edge_list] and the driver's loop over the catalog *)

(** [G.edges]: every undirected edge once.  For a graph built from a
    symmetric matrix, the only kind the source builds, the library
    lists the edges in row order, the smaller endpoint first. *)
Definition graph_edges (G : Graph) : list edge_t :=
  List.filter (fun ij => (ij.1 <=? ij.2) && edge G ij.1 ij.2)
    (list_prod (seq 0 (order G)) (seq 0 (order G))).

(** The text of the attribute dictionary of an edge read from a float
    matrix entry [1.0]. *)
Definition edge_data : string := "{'weight': 1.0}".

(** [nx.generate_edgelist(G)]: one line per edge, holding the two node
    labels and the attribute dictionary, joined by single blanks. *)
Definition generate_edgelist (G : Graph) : list string :=
  map (fun e => str e.1 +:+ " " +:+ str e.2 +:+ " " +:+ edge_data)
    (graph_edges G).

(** The characters [str.split] and [int] take for white space, among
    the code points below 256. *)
Definition is_space (c : Ascii.ascii) : bool :=
  let n := Ascii.nat_of_ascii c in
  (9 <=? n) && (n <=? 13) || (28 <=? n) && (n <=? 32)
  || (n =? 133) || (n =? 160).

(** [s.split()]: the maximal runs of characters that are not white
    space; [cur] is the run being read. *)
Fixpoint split_from (cur : list Ascii.ascii) (l : list Ascii.ascii)
  : list (list Ascii.ascii) :=
  match l with
  | [] => match cur with [] => [] | _ => [cur] end
  | c :: l' =>
      if is_space c
      then match cur with
           | [] => split_from [] l'
           | _ => cur :: split_from [] l'
           end
      else split_from (cur ++ [c]) l'
  end.

Definition split (s : string) : list (list Ascii.ascii) :=
  split_from [] (chars s).

Definition digit_of (c : Ascii.ascii) : option nat :=
  let n := Ascii.nat_of_ascii c in
  if (48 <=? n) && (n <=? 57) then Some (n - 48) else None.

(** The digits of an integer literal after its first digit: a single
    underscore (code 95) may stand between two digits. *)
Fixpoint int_digits (acc : nat) (l : list Ascii.ascii) : option nat :=
  match l with
  | [] => Some acc
  | c :: l' =>
      if decide (Ascii.nat_of_ascii c = 95)
      then match l' with
           | c' :: l'' => d ← digit_of c'; int_digits (acc * 10 + d) l''
           | [] => None
           end
      else d ← digit_of c; int_digits (acc * 10 + d) l'
  end.

Definition int_unsigned (l : list Ascii.ascii) : option nat :=
  match l with
  | c :: l' => d ← digit_of c; int_digits d l'
  | [] => None
  end.

Fixpoint lstrip (l : list Ascii.ascii) : list Ascii.ascii :=
  match l with
  | c :: l' => if is_space c then lstrip l' else l
  | [] => []
  end.

Definition strip (l : list Ascii.ascii) : list Ascii.ascii :=
  reverse (lstrip (reverse (lstrip l))).

(** [int(s)] in base ten: white space around the literal is dropped, one
    sign (code 43 or 45) may precede the digits; anything else is a
    [ValueError]. *)
Definition int (l : list Ascii.ascii) : option Z :=
  match strip l with
  | c :: ds =>
      if decide (Ascii.nat_of_ascii c = 43) then Z.of_nat <$> int_unsigned ds
      else if decide (Ascii.nat_of_ascii c = 45)
           then (fun n => (- Z.of_nat n)%Z) <$> int_unsigned ds
           else Z.of_nat <$> int_unsigned (c :: ds)
  | [] => None
  end.

Definition get_edge_list (G : Graph) : option (list (Z * Z)) :=
  foldlM (fun edges line =>
            let line := split line in
            s ← py_index line 0; x ← int s;
            s ← py_index line 1; y ← int s;
            Some (edges ++ [(x, y)]))
    [] (generate_edgelist G).



(** ** [matrix_minor] *)

(** An integer index that [np.delete] refuses along an axis of [size]
    entries, with an [IndexError]. *)
Definition out_of_bounds (size : nat) (i : Z) : Prop :=
  (i < - Z.of_nat size \/ Z.of_nat size <= i)%Z.

(** A negative index counts from the end. *)
Definition wrap (size : nat) (i : Z) : nat :=
  Z.to_nat (if decide (i < 0)%Z then i + Z.of_nat size else i)%Z.

(** [np.delete(A, r, 0)]. *)
Definition delete_row {X : Type} (A : list (list X)) (r : Z)
  : option (list (list X)) :=
  if decide (out_of_bounds (length A) r) then None
  else Some (delete (wrap (length A) r) A).

(** [np.delete(A, c, 1)] on a matrix of [ncols] columns. *)
Definition delete_column {X : Type} (ncols : nat) (A : list (list X)) (c : Z)
  : option (list (list X)) :=
  if decide (out_of_bounds ncols c) then None
  else Some (map (delete (wrap ncols c)) A).

(** The number of columns, read off the first row. *)
Definition width {X : Type} (A : list (list X)) : nat :=
  length (default [] (head A)).

(** The row goes first; the column index is then checked against the
    number of columns, also when no row is left. *)
Definition matrix_minor {X : Type} (A : list (list X)) (r c : Z)
  : option (list (list X)) :=
  Ar ← delete_row A r;
  delete_column (width A) Ar c.

(** The index the [i]-th entry had before entry [k] was removed. *)
Definition skip (k i : nat) : nat := if decide (i < k) then i else S i.

(** * Properties *)

(** ** Binomial coefficients *)

Lemma choose_0_r x : choose x 0 = 1.
Proof. destruct x; reflexivity. Qed.

Lemma choose_small x j : x < j -> choose x j = 0.
Proof.
  revert j; induction x as [|x IH]; intros [|j] H; simpl; try lia.
  rewrite !IH by lia. reflexivity.
Qed.

Lemma choose_absorb x j : choose x (S j) * S j = choose x j * (x - j).
Proof.
  revert j; induction x as [|x IH]; intros j.
  - destruct j; simpl; lia.
  - destruct j as [|j].
    + specialize (IH 0). rewrite choose_0_r in IH.
      change (choose (S x) 1) with (choose x 0 + choose x 1).
      rewrite !choose_0_r. lia.
    + change (choose (S x) (S (S j))) with (choose x (S j) + choose x (S (S j))).
      change (choose (S x) (S j)) with (choose x j + choose x (S j)).
      pose proof (IH j) as H1. pose proof (IH (S j)) as H2.
      destruct (le_lt_dec (S j) x) as [Hle|Hlt].
      * replace (S x - S j) with (S (x - S j)) by lia.
        replace (x - j) with (S (x - S j)) in H1 by lia. nia.
      * rewrite (choose_small x (S (S j))) by lia.
        rewrite (choose_small x (S (S j))) in H2 by lia.
        replace (S x - S j) with (x - j) by lia. nia.
Qed.

Lemma binom_choose x j : binom x j = N.of_nat (choose x j).
Proof.
  induction j as [|j IH].
  - destruct x; reflexivity.
  - cbn [binom]. rewrite IH, <- Nat2N.inj_mul, <- choose_absorb, Nat2N.inj_mul.
    apply N.div_mul. lia.
Qed.

Lemma binom_pascal x j : binom (S x) (S j) = (binom x j + binom x (S j))%N.
Proof. rewrite !binom_choose. simpl. lia. Qed.

Lemma binom_0_r x : binom x 0 = 1%N.
Proof. reflexivity. Qed.

Lemma binom_0_l j : binom 0 (S j) = 0%N.
Proof. rewrite binom_choose. reflexivity. Qed.

Lemma binom_small x j : x < j -> binom x j = 0%N.
Proof. intros H. rewrite binom_choose, choose_small by done. reflexivity. Qed.

Lemma binom_mono_S x j : (binom x j <= binom (S x) j)%N.
Proof. destruct j; [reflexivity|]. rewrite binom_pascal. lia. Qed.

Lemma binom_mono x y j : x <= y -> (binom x j <= binom y j)%N.
Proof.
  induction 1 as [|y _ IH]; [reflexivity|].
  etrans; [exact IH|apply binom_mono_S].
Qed.

(** ** The inner loop *)

Lemma descend_zero j r : descend 0 (S j) r = 0.
Proof. cbn [descend]. rewrite binom_0_l. by destruct (r <? 0)%N. Qed.

Lemma descend_le x j r : descend x j r <= x.
Proof.
  induction x as [|x IH]; simpl.
  - destruct (_ <? _)%N; lia.
  - destruct (_ <? _)%N; lia.
Qed.

Lemma descend_stop x j r : (binom (descend x (S j) r) (S j) <= r)%N.
Proof.
  induction x as [|x IH].
  - rewrite descend_zero, binom_0_l. lia.
  - cbn [descend]. destruct (N.ltb_spec r (binom (S x) (S j))); [exact IH|lia].
Qed.

Lemma descend_stay x j r : (binom x j <= r)%N -> descend x j r = x.
Proof.
  intros H. destruct x; cbn [descend].
  - destruct (N.ltb_spec r (binom 0 j)); [lia|done].
  - destruct (N.ltb_spec r (binom (S x) j)); [lia|done].
Qed.

Lemma descend_strict x j r :
  (r < binom x (S j))%N ->
  descend x (S j) r < x /\ (r < binom (S (descend x (S j) r)) (S j))%N.
Proof.
  induction x as [|x IH]; intros H.
  - rewrite binom_0_l in H. lia.
  - cbn [descend]. destruct (N.ltb_spec r (binom (S x) (S j))); [|lia].
    destruct (N.lt_ge_cases r (binom x (S j))) as [Hlt|Hge].
    + destruct (IH Hlt). split; [lia|done].
    + rewrite descend_stay by done. split; [lia|done].
Qed.

Lemma descend_eq x c j r :
  c <= x -> (binom c j <= r)%N -> (r < binom (S c) j)%N -> descend x j r = c.
Proof.
  induction x as [|x IH]; intros Hc Hlo Hhi.
  - assert (c = 0) as -> by lia. simpl. destruct (N.ltb_spec r (binom 0 j)); [done|done].
  - cbn [descend]. destruct (decide (c = S x)) as [->|Hne].
    + destruct (N.ltb_spec r (binom (S x) j)); [lia|done].
    + pose proof (binom_mono (S c) (S x) j ltac:(lia)).
      destruct (N.ltb_spec r (binom (S x) j)); [|lia].
      apply IH; [lia|done|done].
Qed.

(** ** [unrank_kSubset] *)

(** The loop over the positions fills [T] from the left; once the last
    position is written, [T] is the list [unrank_from] builds. *)
Lemma unrank_loop k b : forall a T x r,
  length T = k -> a + b = k ->
  (foldl (unrank_step k) (T, x, r) (seq (S a) b)).1.1
  = take a T ++ unrank_from b x r.
Proof.
  induction b as [|b IH]; intros a T x r HT Hk.
  - simpl. rewrite app_nil_r, take_ge by lia. reflexivity.
  - cbn [seq foldl unrank_step unrank_from].
    replace (k + 1 - S a) with (S b) by lia.
    replace (S a - 1) with a by lia.
    rewrite IH by (rewrite ?length_insert; lia).
    rewrite (take_S_r _ _ (descend x (S b) r))
      by (apply list_lookup_insert_eq; lia).
    rewrite take_insert_ge by lia.
    rewrite <- app_assoc. reflexivity.
Qed.

Lemma unrank_kSubset_eq r k n : unrank_kSubset r k n = unrank_from k n r.
Proof.
  unfold unrank_kSubset.
  rewrite (unrank_loop k k 0) by (rewrite ?length_replicate; lia).
  reflexivity.
Qed.

Lemma unrank_from_spec j : forall x r,
  (r < binom x j)%N ->
  length (unrank_from j x r) = j
  /\ Forall (fun y => y < x) (unrank_from j x r)
  /\ decreasing (unrank_from j x r)
  /\ rank_of (unrank_from j x r) = r.
Proof.
  induction j as [|j IH]; intros x r Hr.
  - rewrite binom_0_r in Hr. simpl.
    split_and!; [done|constructor|constructor|lia].
  - cbn [unrank_from]. set (x' := descend x (S j) r).
    destruct (descend_strict x j r Hr) as [Hx' Hhi]. fold x' in Hx', Hhi.
    pose proof (descend_stop x j r) as Hlo. fold x' in Hlo.
    rewrite binom_pascal in Hhi.
    destruct (IH x' (r - binom x' (S j))%N ltac:(lia)) as (Hlen & Hall & Hdec & Hrk).
    split_and!.
    + cbn [length]. by rewrite Hlen.
    + constructor; [done|]. eapply Forall_impl; [exact Hall|]. simpl. lia.
    + constructor; [done|]. exact Hall.
    + cbn [rank_of length]. rewrite Hlen, Hrk. lia.
Qed.

Lemma rank_of_spec l : forall x,
  decreasing l -> Forall (fun y => y < x) l ->
  (rank_of l < binom x (length l))%N
  /\ unrank_from (length l) x (rank_of l) = l.
Proof.
  induction l as [|c l IH]; intros x Hdec Hall.
  - simpl. split; [lia|done].
  - apply StronglySorted_inv in Hdec as [Hdec Hc].
    apply Forall_cons in Hall as [Hcx _]. simpl in Hcx.
    destruct (IH c Hdec Hc) as [Hlt Heq].
    cbn [rank_of length unrank_from].
    pose proof (binom_pascal c (length l)) as HP.
    pose proof (binom_mono (S c) x (S (length l)) ltac:(lia)) as HM.
    assert (descend x (S (length l)) (binom c (S (length l)) + rank_of l) = c)
      as ->.
    { apply descend_eq; [lia|lia|]. rewrite HP. lia. }
    split; [lia|].
    replace (binom c (S (length l)) + rank_of l - binom c (S (length l)))%N
      with (rank_of l) by lia.
    by rewrite Heq.
Qed.

Lemma decreasing_NoDup l : decreasing l -> NoDup l.
Proof.
  induction 1 as [|c l _ IH Hc]; constructor; [|done].
  intros Hin. rewrite Forall_forall in Hc. specialize (Hc c Hin).
  unfold gt in Hc. lia.
Qed.

#[local] Instance gt_antisymm : AntiSymm (=) gt.
Proof. intros x y ??. lia. Qed.






(** ** [taxi_distance] *)


Lemma taxi_distance_coord (p q : coord) :
  taxi_distance (coord_list p) (coord_list q)
  = Some (Z.abs (p.1.1 - q.1.1) + Z.abs (p.1.2 - q.1.2) + Z.abs (p.2 - q.2))%Z.
Proof. unfold taxi_distance. simpl. f_equal. Qed.



(** ** [num_regions] on two cubes *)

Lemma num_regions_pair (p q : coord) (d : Z) :
  taxi_distance (coord_list p) (coord_list q) = Some d ->
  num_regions [p; q]
  = Some (if bool_decide (d = 1%Z) then 1 else 2).
Proof.
  rewrite taxi_distance_coord. intros [= Hd].
  unfold num_regions, polycube_to_graph. cbn [mapM].
  rewrite !taxi_distance_coord. cbn [mbind option_bind mret option_ret].
  replace (q.1.1 - p.1.1)%Z with (- (p.1.1 - q.1.1))%Z by lia.
  replace (q.1.2 - p.1.2)%Z with (- (p.1.2 - q.1.2))%Z by lia.
  replace (q.2 - p.2)%Z with (- (p.2 - q.2))%Z by lia.
  rewrite !Z.abs_opp, Hd, !Z.sub_diag. simpl Z.abs. cbn [Z.add].
  by destruct (bool_decide (d = 1%Z)).
Qed.

(** C7.  Two coordinates at Manhattan distance [2] make two regions;
    two coordinates at distance [1] make one. *)
Theorem num_regions_two_cubes (p q : coord) :
  (taxi_distance (coord_list p) (coord_list q) = Some 2%Z ->
   num_regions [p; q] = Some 2)
  /\ (taxi_distance (coord_list p) (coord_list q) = Some 1%Z ->
      num_regions [p; q] = Some 1).
Proof.
  split; intros H; rewrite (num_regions_pair p q _ H); reflexivity.
Qed.

Lemma num_regions_two_cubes_witness :
  num_regions [(0, 0, 0)%Z; (1, 1, 0)%Z] = Some 2
  /\ num_regions [(0, 0, 0)%Z; (0, 1, 0)%Z] = Some 1.
Proof.
  split.
  - apply (proj1 (num_regions_two_cubes (0, 0, 0)%Z (1, 1, 0)%Z)). reflexivity.
  - apply (proj2 (num_regions_two_cubes (0, 0, 0)%Z (0, 1, 0)%Z)). reflexivity.
Defined.

(** ** Bounding boxes under the transforms *)

Lemma elem_of_list_map {A B : Type} (f : A -> B) (l : list A) (y : B) :
  y ∈ map f l <-> exists x, y = f x /\ x ∈ l.
Proof. exact (list_elem_of_fmap f l y). Qed.

Lemma elem_of_newCoordSet f p c' :
  c' ∈ newCoordSet f p <-> exists c, c' = f c /\ c ∈ p.
Proof. unfold newCoordSet. rewrite elem_of_list_to_set. apply elem_of_list_map. Qed.

Lemma max_of_spec l : forall z,
  (max_of z l = z \/ max_of z l ∈ l)
  /\ (z <= max_of z l)%Z /\ forall x, x ∈ l -> (x <= max_of z l)%Z.
Proof.
  unfold max_of. induction l as [|y l IH]; intros z; simpl.
  - split_and!; [by left|lia|]. intros x Hx. by apply elem_of_nil in Hx.
  - destruct (IH (Z.max z y)) as (Hin & Hle & Hall). split_and!.
    + destruct Hin as [Hin|Hin]; [|right; by right].
      rewrite Hin. destruct (Z.max_spec z y) as [[_ ->]|[_ ->]];
        [right; left|by left].
    + lia.
    + intros x [->|Hx]%elem_of_cons; [lia|by apply Hall].
Qed.

Lemma axis_max_unique S i a b : axis_max S i a -> axis_max S i b -> a = b.
Proof.
  intros [(c & Hc & <-) Ha] [(d & Hd & <-) Hb].
  specialize (Ha d Hd). specialize (Hb c Hc). lia.
Qed.

Lemma axis_max_column (f : coord -> Z) (i : nat) c p :
  (forall q, f q = axis q i) ->
  axis_max (list_to_set (c :: p)) i (max_of (f c) (map f p)).
Proof.
  intros Hf. destruct (max_of_spec (map f p) (f c)) as (Hin & Hle & Hall).
  split.
  - destruct Hin as [Hin|Hin].
    + exists c. split; [apply elem_of_list_to_set; by left|].
      by rewrite Hin, Hf.
    + apply elem_of_list_map in Hin as (q & Hq & Hqp).
      exists q. split; [apply elem_of_list_to_set; by right|].
      by rewrite Hq, Hf.
  - intros q Hq. apply elem_of_list_to_set, elem_of_cons in Hq as [->|Hq].
    + by rewrite <- Hf.
    + rewrite <- Hf. apply Hall, elem_of_list_map. by exists q.
Qed.

(** The pivots are the per-axis maxima of the set being transformed. *)
Lemma reflectPoints_spec p i :
  p <> [] -> i < 3 ->
  exists a, reflectPoints p !! i = Some a /\ axis_max (list_to_set p) i a.
Proof.
  intros Hp Hi. destruct p as [|c p]; [done|]. unfold reflectPoints.
  destruct i as [|[|[|i]]]; [| | |lia]; eexists; (split; [reflexivity|]).
  - by apply (axis_max_column (fun q : coord => q.1.1)).
  - by apply (axis_max_column (fun q : coord => q.1.2)).
  - by apply (axis_max_column (fun q : coord => q.2)).
Qed.

Lemma reflectPoints_axis_max p i a :
  reflectPoints p !! i = Some a -> i < 3 -> axis_max (list_to_set p) i a.
Proof.
  intros Ha Hi. destruct p as [|c p]; [done|].
  destruct (reflectPoints_spec (c :: p) i) as (a' & Ha' & Hmax); [done|done|].
  congruence.
Qed.

(** Along one axis a transform either copies a source axis or reflects
    it about that axis' maximum; both keep the minimum [0] and the
    maximum. *)
Lemma image_axis (f : coord -> coord) (p : list coord) (m s : nat) (a : Z)
    (refl : bool) :
  (forall c, axis (f c) m = if refl then (a - axis c s)%Z else axis c s) ->
  axis_min (list_to_set p) s 0%Z ->
  axis_max (list_to_set p) s a ->
  axis_min (newCoordSet f p) m 0%Z /\ axis_max (newCoordSet f p) m a.
Proof.
  intros Hf [(c0 & Hc0 & Hmin0) Hmin] [(c1 & Hc1 & Hmax1) Hmax].
  apply elem_of_list_to_set in Hc0, Hc1.
  assert (forall c, c ∈ p -> (0 <= axis c s <= a)%Z) as Hbox.
  { intros c Hc. apply (elem_of_list_to_set (C:=gset coord)) in Hc.
    specialize (Hmin c Hc). specialize (Hmax c Hc). lia. }
  destruct refl; split; split.
  - exists (f c1). split; [apply elem_of_newCoordSet; by exists c1|].
    rewrite Hf. lia.
  - intros c' (c & -> & Hc)%elem_of_newCoordSet. rewrite Hf.
    specialize (Hbox c Hc). lia.
  - exists (f c0). split; [apply elem_of_newCoordSet; by exists c0|].
    rewrite Hf. lia.
  - intros c' (c & -> & Hc)%elem_of_newCoordSet. rewrite Hf.
    specialize (Hbox c Hc). lia.
  - exists (f c0). split; [apply elem_of_newCoordSet; by exists c0|].
    rewrite Hf. lia.
  - intros c' (c & -> & Hc)%elem_of_newCoordSet. rewrite Hf.
    specialize (Hbox c Hc). lia.
  - exists (f c1). split; [apply elem_of_newCoordSet; by exists c1|].
    rewrite Hf. lia.
  - intros c' (c & -> & Hc)%elem_of_newCoordSet. rewrite Hf.
    specialize (Hbox c Hc). lia.
Qed.

Ltac in_list :=
  solve [repeat (apply elem_of_cons; first [by left | right])].

Ltac enum H :=
  repeat (apply elem_of_cons in H as [H|H]; [subst|]);
  try (by apply elem_of_nil in H).

Lemma map_all_axis ijk abc r c m :
  m < 3 ->
  axis (map_all ijk abc r c) m
  = if pick r m then (pick abc m - axis c (pick ijk m))%Z
    else axis c (pick ijk m).
Proof.
  intros Hm. destruct m as [|[|[|m]]]; [reflexivity..|lia].
Qed.

Lemma map_poly_as_all ij ab r z c :
  map_poly ij ab r c = map_all (ij.1, ij.2, 2) (ab.1, ab.2, z) (r.1, r.2, false) c.
Proof. reflexivity. Qed.

Lemma permutations3_range ijk m : ijk ∈ permutations3 -> m < 3 -> pick ijk m < 3.
Proof.
  intros H Hm. enum H; destruct m as [|[|[|m]]]; simpl; lia.
Qed.

Lemma permutations2_range ij m :
  ij ∈ permutations2 -> m < 3 -> pick (ij.1, ij.2, 2) m < 3.
Proof.
  intros H Hm. enum H; destruct m as [|[|[|m]]]; simpl; lia.
Qed.

(** A transform whose pivots are the maxima of the axes it reflects
    sends an origin-translated set to an origin-translated set, with
    the maxima permuted along. *)
Lemma transform_box (p2 : list coord) ijk abc r :
  p2 <> [] -> origin_translated (list_to_set p2) ->
  (forall m, m < 3 -> pick ijk m < 3) ->
  (forall m, m < 3 -> pick r m = true ->
             reflectPoints p2 !! pick ijk m = Some (pick abc m)) ->
  origin_translated (newCoordSet (map_all ijk abc r) p2)
  /\ forall m M, m < 3 ->
       axis_max (list_to_set p2) (pick ijk m) M ->
       axis_max (newCoordSet (map_all ijk abc r) p2) m M.
Proof.
  intros Hne Horig Hrange Hpivot.
  assert (forall m, m < 3 -> exists a,
            axis_max (list_to_set p2) (pick ijk m) a
            /\ axis_min (newCoordSet (map_all ijk abc r) p2) m 0%Z
            /\ axis_max (newCoordSet (map_all ijk abc r) p2) m a) as Hbox.
  { intros m Hm.
    destruct (reflectPoints_spec p2 (pick ijk m) Hne (Hrange m Hm))
      as (a & Ha & Hmax).
    exists a. split; [done|].
    apply (image_axis _ _ m (pick ijk m) a (pick r m)); [|by auto|done].
    intros c. rewrite map_all_axis by done.
    destruct (pick r m) eqn:Hr; [|done].
    rewrite (Hpivot m Hm Hr) in Ha. by injection Ha as ->. }
  split.
  - intros m Hm. by destruct (Hbox m Hm) as (a & _ & Hmin & _).
  - intros m M Hm HM. destruct (Hbox m Hm) as (a & Ha & _ & Hmax).
    by rewrite (axis_max_unique _ _ _ _ HM Ha).
Qed.

(** C10.  For a non-empty [p2] whose minimum along each axis is [0],
    every transformed set that [check_all_isomorphism] builds, and every
    one that [check_poly_isomorphism] builds with the third axis kept,
    again has minimum [0] along each axis, and its maximum along axis
    [m] is the maximum of [p2] along the axis the permutation puts at
    position [m]. *)
Theorem transforms_keep_origin (p2 : list coord) :
  p2 <> [] -> origin_translated (list_to_set p2) ->
  (forall ijk a b c reflect,
     ijk ∈ permutations3 -> reflect ∈ coorReflect3 ->
     reflectPoints p2 !! ijk.1.1 = Some a ->
     reflectPoints p2 !! ijk.1.2 = Some b ->
     reflectPoints p2 !! ijk.2 = Some c ->
     origin_translated (newCoordSet (map_all ijk (a, b, c) reflect) p2)
     /\ forall m M, m < 3 ->
          axis_max (list_to_set p2) (pick ijk m) M ->
          axis_max (newCoordSet (map_all ijk (a, b, c) reflect) p2) m M)
  /\ (forall ij a b reflect,
     ij ∈ permutations2 -> reflect ∈ coorReflect2 ->
     reflectPoints p2 !! ij.1 = Some a ->
     reflectPoints p2 !! ij.2 = Some b ->
     origin_translated (newCoordSet (map_poly ij (a, b) reflect) p2)
     /\ forall m M, m < 3 ->
          axis_max (list_to_set p2) (pick (ij.1, ij.2, 2) m) M ->
          axis_max (newCoordSet (map_poly ij (a, b) reflect) p2) m M).
Proof.
  intros Hne Horig. split.
  - intros ijk a b c reflect Hijk _ Ha Hb Hc.
    apply transform_box; [done|done|intros m Hm; by apply permutations3_range|].
    intros m Hm _. by destruct m as [|[|[|m]]]; [..|lia].
  - intros ij a b reflect Hij _ Ha Hb.
    apply (transform_box p2 (ij.1, ij.2, 2) (a, b, 0%Z)
             (reflect.1, reflect.2, false));
      [done|done|intros m Hm; by apply permutations2_range|].
    intros m Hm Hr. by destruct m as [|[|[|m]]]; [..|lia].
Qed.

Lemma transforms_keep_origin_witness :
  origin_translated
    (newCoordSet (map_all (1, 2, 0) (1, 0, 2)%Z (true, false, true))
       [(0, 0, 0)%Z; (1, 0, 0)%Z; (2, 0, 0)%Z; (2, 1, 0)%Z]).
Proof.
  refine (proj1 (proj1 (transforms_keep_origin
            [(0, 0, 0)%Z; (1, 0, 0)%Z; (2, 0, 0)%Z; (2, 1, 0)%Z] _ _)
            (1, 2, 0) 1%Z 0%Z 2%Z (true, false, true) _ _ _ _ _));
    [done| |set_solver|set_solver|reflexivity..].
  intros i Hi. destruct i as [|[|[|i]]]; [| | |lia];
    (split; [exists (0, 0, 0)%Z; split; [set_solver|done]|]);
    intros c Hc; apply elem_of_list_to_set in Hc; enum Hc; simpl; lia.
Defined.

(** ** The search loops *)

Lemma search_is_Some {A : Type} (f : A -> option bool) l :
  (forall x, x ∈ l -> is_Some (f x)) -> is_Some (search f l).
Proof.
  induction l as [|a l IH]; intros Hf; simpl; [by eexists|].
  destruct (Hf a) as [[] ->]; [by left|by eexists|]. simpl.
  apply IH. intros x Hx. apply Hf. by right.
Qed.

Lemma search_true_inv {A : Type} (f : A -> option bool) l :
  search f l = Some true -> exists x, x ∈ l /\ f x = Some true.
Proof.
  induction l as [|a l IH]; simpl; [done|].
  destruct (f a) as [[]|] eqn:Ha; simpl; [|intros H|done].
  - intros _. exists a. split; [by left|done].
  - destruct (IH H) as (x & Hx & Hfx). exists x. split; [by right|done].
Qed.

Lemma search_true_intro {A : Type} (f : A -> option bool) l x :
  (forall y, y ∈ l -> is_Some (f y)) ->
  x ∈ l -> f x = Some true -> search f l = Some true.
Proof.
  induction l as [|a l IH]; intros Hf Hx Hfx; [by apply elem_of_nil in Hx|].
  simpl. destruct (Hf a) as [[] Ha]; [by left|by rewrite Ha|].
  rewrite Ha. simpl. apply elem_of_cons in Hx as [->|Hx]; [congruence|].
  apply IH; [|done|done]. intros y Hy. apply Hf. by right.
Qed.

Lemma search_false_iff {A : Type} (f : A -> option bool) l :
  search f l = Some false <-> forall x, x ∈ l -> f x = Some false.
Proof.
  induction l as [|a l IH]; simpl.
  - split; [|done]. intros _ x Hx. by apply elem_of_nil in Hx.
  - split.
    + destruct (f a) as [[]|] eqn:Ha; simpl; [done| |done].
      intros H x [->|Hx]%elem_of_cons; [done|]. by apply IH.
    + intros H. rewrite (H a) by (by left). simpl.
      apply IH. intros x Hx. apply H. by right.
Qed.

Lemma search_pure_true {A : Type} (g : A -> bool) l :
  search (fun x => Some (g x)) l = Some true <-> exists x, x ∈ l /\ g x = true.
Proof.
  split.
  - intros (x & Hx & [= Hg])%search_true_inv. by exists x.
  - intros (x & Hx & Hg). apply (search_true_intro _ _ x); [|done|by rewrite Hg].
    intros y _. by eexists.
Qed.

Lemma search_pure_is_Some {A : Type} (g : A -> bool) l :
  is_Some (search (fun x => Some (g x)) l).
Proof. apply search_is_Some. intros x _. by eexists. Qed.

(** ** The symmetry tests, one transform at a time *)

Lemma reflectPoints_triple p :
  p <> [] ->
  exists P : Z * Z * Z,
    reflectPoints p = [P.1.1; P.1.2; P.2]
    /\ forall m, m < 3 -> axis_max (list_to_set p) m (pick P m).
Proof.
  intros Hp. destruct p as [|c p]; [done|].
  eexists (_, _, _). split; [reflexivity|].
  intros m Hm.
  destruct (reflectPoints_spec (c :: p) m Hp Hm) as (a & Ha & Hmax).
  destruct m as [|[|[|m]]]; [..|lia]; simpl in *; by injection Ha as <-.
Qed.

Lemma coorReflect3_all r : r ∈ coorReflect3.
Proof. destruct r as [[[] []] []]; unfold coorReflect3; in_list. Qed.

Lemma coorReflect2_all r : r ∈ coorReflect2.
Proof. destruct r as [[] []]; unfold coorReflect2; in_list. Qed.

Lemma check_all_true_iff (A B : list coord) (P : Z * Z * Z) :
  reflectPoints B = [P.1.1; P.1.2; P.2] ->
  check_all_isomorphism A B = Some true
  <-> exists ijk r, ijk ∈ permutations3
        /\ newCoordSet (map_all ijk (permute3 ijk P) r) B = list_to_set A.
Proof.
  intros HP. unfold check_all_isomorphism. rewrite HP. split.
  - intros (ijk & Hijk & Hin)%search_true_inv.
    enum Hijk; apply search_true_inv in Hin as (r & _ & [= Hr]);
      apply bool_decide_eq_true in Hr; eexists _, r; (split; [|exact Hr]);
      unfold permutations3; in_list.
  - intros (ijk & r & Hijk & Heq).
    apply (search_true_intro _ _ ijk); [|done|].
    + intros y Hy. enum Hy; apply search_pure_is_Some.
    + enum Hijk; apply search_pure_true; exists r;
        (split; [apply coorReflect3_all|by apply bool_decide_eq_true]).
Qed.

Lemma check_poly_true_iff (A B : list coord) (P : Z * Z * Z) :
  reflectPoints B = [P.1.1; P.1.2; P.2] ->
  check_poly_isomorphism A B = Some true
  <-> exists ij r, ij ∈ permutations2
        /\ newCoordSet (map_all (ij.1, ij.2, 2) (permute3 (ij.1, ij.2, 2) P)
                          (r.1, r.2, false)) B
           = list_to_set A.
Proof.
  intros HP. unfold check_poly_isomorphism. rewrite HP. split.
  - intros (ij & Hij & Hin)%search_true_inv.
    enum Hij; apply search_true_inv in Hin as (r & _ & [= Hr]);
      apply bool_decide_eq_true in Hr; eexists _, r; (split; [|exact Hr]);
      unfold permutations2; in_list.
  - intros (ij & r & Hij & Heq).
    apply (search_true_intro _ _ ij); [|done|].
    + intros y Hy. enum Hy; apply search_pure_is_Some.
    + enum Hij; apply search_pure_true; exists r;
        (split; [apply coorReflect2_all|by apply bool_decide_eq_true]).
Qed.

Lemma inv3_permutations3 ijk : ijk ∈ permutations3 -> inv3 ijk ∈ permutations3.
Proof. intros H. enum H; unfold permutations3; simpl; in_list. Qed.

(** The transform of the inverse permutation, with the flags and the
    pivots rearranged along, undoes a transform. *)
Lemma map_all_inv ijk r abc q :
  ijk ∈ permutations3 ->
  map_all (inv3 ijk) (permute3 (inv3 ijk) abc) (permute3 (inv3 ijk) r)
    (map_all ijk abc r q) = q.
Proof.
  intros H. destruct abc as [[a b] c], q as [[x y] z], r as [[[] []] []];
    enum H; cbv [map_all inv3 permute3 pick axis fst snd];
    repeat f_equal; lia.
Qed.

Lemma newCoordSet_nonempty f (B : list coord) (A : list coord) :
  B <> [] -> newCoordSet f B = list_to_set A -> A <> [].
Proof.
  intros HB Heq ->. destruct B as [|b B]; [done|].
  assert (f b ∈ newCoordSet f (b :: B)) as Hin.
  { apply elem_of_newCoordSet. exists b. split; [done|by left]. }
  rewrite Heq in Hin. by apply elem_of_empty in Hin.
Qed.

Lemma origin_translated_nonempty (B : list coord) :
  origin_translated (list_to_set B) -> B <> [].
Proof.
  intros H ->. destruct (H 0) as [(c & Hc & _) _]; [lia|].
  by apply elem_of_empty in Hc.
Qed.

Lemma iso_symmetric_core (A B : list coord) ijk r (P : Z * Z * Z) :
  origin_translated (list_to_set B) ->
  reflectPoints B = [P.1.1; P.1.2; P.2] ->
  ijk ∈ permutations3 ->
  newCoordSet (map_all ijk (permute3 ijk P) r) B = list_to_set A ->
  reflectPoints A
  = [(permute3 ijk P).1.1; (permute3 ijk P).1.2; (permute3 ijk P).2]
  /\ newCoordSet
       (map_all (inv3 ijk) (permute3 (inv3 ijk) (permute3 ijk P))
          (permute3 (inv3 ijk) r)) A
     = list_to_set B.
Proof.
  intros Horig HP Hijk Heq.
  pose proof (origin_translated_nonempty B Horig) as HB.
  pose proof (newCoordSet_nonempty _ B A HB Heq) as HA.
  split.
  - destruct (reflectPoints_triple A HA) as (PA & HPA & HmaxA).
    destruct (reflectPoints_triple B HB) as (PB & HPB & HmaxB).
    assert (PB = P) as ->.
    { rewrite HP in HPB. destruct PB as [[? ?] ?], P as [[? ?] ?].
      simpl in HPB. congruence. }
    destruct (transform_box B ijk (permute3 ijk P) r HB Horig) as [_ Hmax].
    { intros m Hm. by apply permutations3_range. }
    { intros m Hm _. rewrite HP.
      destruct P as [[? ?] ?]. enum Hijk; by destruct m as [|[|[|m]]]; [..|lia]. }
    rewrite Heq in Hmax.
    assert (forall m, m < 3 -> pick PA m = pick (permute3 ijk P) m) as Hpick.
    { intros m Hm. apply (axis_max_unique (list_to_set A) m); [by apply HmaxA|].
      apply Hmax; [done|].
      replace (pick (permute3 ijk P) m) with (pick P (pick ijk m))
        by (by destruct m as [|[|[|m]]]; [..|lia]).
      apply HmaxB. by apply permutations3_range. }
    rewrite HPA.
    change PA.1.1 with (pick PA 0). change PA.1.2 with (pick PA 1).
    change PA.2 with (pick PA 2).
    rewrite !Hpick by lia. reflexivity.
  - apply set_eq. intros c. rewrite elem_of_newCoordSet, elem_of_list_to_set.
    split.
    + intros (q & -> & Hq).
      apply (elem_of_list_to_set (C:=gset coord)) in Hq. rewrite <- Heq in Hq.
      apply elem_of_newCoordSet in Hq as (b & -> & Hb).
      by rewrite map_all_inv.
    + intros Hc. exists (map_all ijk (permute3 ijk P) r c).
      split; [by rewrite map_all_inv|].
      apply (elem_of_list_to_set (C:=gset coord)). rewrite <- Heq.
      apply elem_of_newCoordSet. by exists c.
Qed.

Lemma check_all_sym (A B : list coord) :
  origin_translated (list_to_set B) ->
  check_all_isomorphism A B = Some true ->
  check_all_isomorphism B A = Some true.
Proof.
  intros Horig.
  destruct (reflectPoints_triple B (origin_translated_nonempty B Horig))
    as (P & HP & _).
  intros (ijk & r & Hijk & Heq)%(check_all_true_iff A B P HP).
  destruct (iso_symmetric_core A B ijk r P Horig HP Hijk Heq) as [HPA Hback].
  apply (check_all_true_iff B A (permute3 ijk P) HPA).
  exists (inv3 ijk), (permute3 (inv3 ijk) r).
  split; [by apply inv3_permutations3|done].
Qed.

Lemma check_poly_sym (A B : list coord) :
  origin_translated (list_to_set B) ->
  check_poly_isomorphism A B = Some true ->
  check_poly_isomorphism B A = Some true.
Proof.
  intros Horig.
  destruct (reflectPoints_triple B (origin_translated_nonempty B Horig))
    as (P & HP & _).
  intros (ij & r & Hij & Heq)%(check_poly_true_iff A B P HP).
  assert ((ij.1, ij.2, 2) ∈ permutations3) as Hijk
    by (enum Hij; unfold permutations3; simpl; in_list).
  destruct (iso_symmetric_core A B _ _ P Horig HP Hijk Heq) as [HPA Hback].
  apply (check_poly_true_iff B A _ HPA).
  exists ij, (pick (r.1, r.2, false) ij.1, pick (r.1, r.2, false) ij.2).
  split; [done|]. by enum Hij.
Qed.

(** C3, as amended.  For all coordinate lists [A] and [B] where the
    minimum of [B] along each axis is [0], and for either test: if the
    test returns true on [(A, B)], it returns true on [(B, A)]. *)
Theorem isomorphism_symmetric (A B : list coord) :
  origin_translated (list_to_set B) ->
  (check_all_isomorphism A B = Some true ->
   check_all_isomorphism B A = Some true)
  /\ (check_poly_isomorphism A B = Some true ->
      check_poly_isomorphism B A = Some true).
Proof.
  intros Horig. split; [by apply check_all_sym|by apply check_poly_sym].
Qed.

Lemma isomorphism_symmetric_witness :
  check_all_isomorphism [(0, 0, 0)%Z; (1, 0, 0)%Z] [(0, 0, 0)%Z; (0, 0, 1)%Z]
  = Some true.
Proof.
  refine (proj1 (isomorphism_symmetric
            [(0, 0, 0)%Z; (0, 0, 1)%Z] [(0, 0, 0)%Z; (1, 0, 0)%Z] _) _).
  - intros i Hi. destruct i as [|[|[|i]]]; [| | |lia];
      (split; [exists (0, 0, 0)%Z; split; [set_solver|done]|]);
      intros c Hc; apply elem_of_list_to_set in Hc; enum Hc; simpl; lia.
  - vm_compute. reflexivity.
Defined.

(** C3 as stated fails: the cube at the origin is matched by the
    reflected cube at [(1,0,0)], not the other way round. *)
Lemma isomorphism_not_symmetric :
  check_all_isomorphism [(0, 0, 0)%Z] [(1, 0, 0)%Z] = Some true
  /\ check_all_isomorphism [(1, 0, 0)%Z] [(0, 0, 0)%Z] = Some false
  /\ check_poly_isomorphism [(0, 0, 0)%Z] [(1, 0, 0)%Z] = Some true
  /\ check_poly_isomorphism [(1, 0, 0)%Z] [(0, 0, 0)%Z] = Some false.
Proof. vm_compute. done. Qed.

(** ** Reflexivity *)

Lemma map_identity (f : coord -> coord) (S : list coord) :
  (forall c, f c = c) -> newCoordSet f S = list_to_set S.
Proof.
  intros Hf. unfold newCoordSet. f_equal.
  induction S as [|c S IH]; [done|]. simpl. by rewrite Hf, IH.
Qed.

Lemma check_all_refl (S : list coord) :
  S <> [] -> check_all_isomorphism S S = Some true.
Proof.
  intros HS. destruct (reflectPoints_triple S HS) as (P & HP & _).
  apply (check_all_true_iff S S P HP).
  exists (0, 1, 2), (false, false, false). split; [by left|].
  apply map_identity. by intros [[x y] z].
Qed.

Lemma check_poly_refl (S : list coord) :
  S <> [] -> check_poly_isomorphism S S = Some true.
Proof.
  intros HS. destruct (reflectPoints_triple S HS) as (P & HP & _).
  apply (check_poly_true_iff S S P HP).
  exists (0, 1), (false, false). split; [by left|].
  apply map_identity. by intros [[x y] z].
Qed.

(** C5, as amended.  For any non-empty coordinate list [S], both tests
    return true on [(S, S)]: the first transform tried, the identity
    permutation without reflections, already matches. *)
Theorem isomorphism_reflexive (S : list coord) :
  S <> [] ->
  check_all_isomorphism S S = Some true
  /\ check_poly_isomorphism S S = Some true.
Proof.
  intros HS. split; [by apply check_all_refl|by apply check_poly_refl].
Qed.

Lemma isomorphism_reflexive_witness :
  check_all_isomorphism [(0, 0, 0)%Z; (3, 1, 0)%Z] [(0, 0, 0)%Z; (3, 1, 0)%Z]
  = Some true
  /\ check_poly_isomorphism [(0, 0, 0)%Z; (3, 1, 0)%Z] [(0, 0, 0)%Z; (3, 1, 0)%Z]
     = Some true.
Proof. apply (isomorphism_reflexive [(0, 0, 0)%Z; (3, 1, 0)%Z]). done. Defined.

(** C5 as stated fails on the empty list: there are no pivots, and the
    first [reflectPoints[i]] raises. *)
Lemma isomorphism_empty_raises :
  check_all_isomorphism [] [] = None /\ check_poly_isomorphism [] [] = None
  /\ check_all_isomorphism [] [] <> Some true
  /\ check_poly_isomorphism [] [] <> Some true.
Proof. split_and!; done. Qed.

(** ** Decoding a rank *)

Lemma decode_rank_table :
  forallb (fun x => bool_decide (decode_rank x = Some (digits5 x))) (seq 0 125)
  = true.
Proof. vm_compute. reflexivity. Qed.

Lemma decode_rank_total x : x < 125 -> decode_rank x = Some (digits5 x).
Proof.
  intros Hx. pose proof decode_rank_table as H.
  rewrite forallb_forall in H. specialize (H x).
  rewrite bool_decide_eq_true in H. apply H, in_seq. lia.
Qed.

Lemma digits5_inj x y : digits5 x = digits5 y -> x = y.
Proof.
  unfold digits5. intros H.
  pose proof (f_equal (fun c : coord => c.1.1) H) as H1.
  pose proof (f_equal (fun c : coord => c.1.2) H) as H2.
  pose proof (f_equal (fun c : coord => c.2) H) as H3.
  cbn [fst snd] in H1, H2, H3.
  apply Nat2Z.inj in H1, H2, H3.
  assert (forall z, z = 25 * (z / 25) + 5 * (z / 5 mod 5) + z mod 5) as Hd.
  { intros z. pose proof (Nat.div_mod_eq z 5) as E1.
    pose proof (Nat.div_mod_eq (z / 5) 5) as E2.
    rewrite Nat.Div0.div_div in E2. change (5 * 5) with 25 in E2.
    generalize dependent (z / 25). generalize dependent (z / 5 mod 5).
    generalize dependent (z mod 5). generalize dependent (z / 5).
    intros. lia. }
  rewrite (Hd x), (Hd y). by rewrite H1, H2, H3.
Qed.

Lemma mapM_total {A B : Type} (f : A -> option B) (g : A -> B) l :
  (forall x, x ∈ l -> f x = Some (g x)) -> mapM f l = Some (map g l).
Proof.
  induction l as [|a l IH]; intros H; [done|].
  simpl. rewrite (H a) by (by left). simpl.
  rewrite IH by (intros x Hx; apply H; by right). done.
Qed.

(** ** The adjacency matrix of a list of triples *)

Lemma polycube_to_graph_total p : polycube_to_graph p = Some (face_matrix p).
Proof.
  unfold polycube_to_graph, face_matrix.
  apply mapM_total. intros pi _. apply mapM_total. intros pj _.
  by rewrite taxi_distance_coord.
Qed.

Lemma num_regions_total p :
  num_regions p
  = Some (number_connected_components (from_numpy_matrix (face_matrix p))).
Proof. unfold num_regions. by rewrite polycube_to_graph_total. Qed.

Lemma manhattan_shift (d p q : coord) :
  manhattan (p.1.1 - d.1.1, p.1.2 - d.1.2, p.2 - d.2)%Z
            (q.1.1 - d.1.1, q.1.2 - d.1.2, q.2 - d.2)%Z
  = manhattan p q.
Proof.
  unfold manhattan. cbn [fst snd].
  replace (p.1.1 - d.1.1 - (q.1.1 - d.1.1))%Z with (p.1.1 - q.1.1)%Z by lia.
  replace (p.1.2 - d.1.2 - (q.1.2 - d.1.2))%Z with (p.1.2 - q.1.2)%Z by lia.
  replace (p.2 - d.2 - (q.2 - d.2))%Z with (p.2 - q.2)%Z by lia.
  reflexivity.
Qed.

Lemma face_matrix_shift (d : coord) p :
  face_matrix
    (map (fun x : coord => (x.1.1 - d.1.1, x.1.2 - d.1.2, x.2 - d.2)%Z) p)
  = face_matrix p.
Proof.
  unfold face_matrix. rewrite map_map. apply map_ext. intros pi.
  rewrite map_map. apply map_ext. intros pj.
  by rewrite manhattan_shift.
Qed.

(** ** The translation to the origin *)

Lemma np_min_spec {A : Type} (f : A -> Z) l m :
  np_min (map f l) = Some m ->
  (exists c, c ∈ l /\ f c = m) /\ forall c, c ∈ l -> (m <= f c)%Z.
Proof.
  destruct l as [|a l]; [done|]. simpl. intros [= <-].
  assert (forall z, (foldl Z.min z (map f l) = z
                     \/ exists c, c ∈ l /\ f c = foldl Z.min z (map f l))
                    /\ (foldl Z.min z (map f l) <= z)%Z
                    /\ forall c, c ∈ l -> (foldl Z.min z (map f l) <= f c)%Z)
    as H.
  { induction l as [|b l IH]; intros z; simpl.
    - split_and!; [by left|lia|]. intros c Hc. by apply elem_of_nil in Hc.
    - destruct (IH (Z.min z (f b))) as (Hin & Hle & Hall). split_and!.
      + destruct Hin as [Hin|(c & Hc & Hfc)].
        * rewrite Hin. destruct (Z.min_spec z (f b)) as [[_ ->]|[_ ->]];
            [by left|right; exists b; split; [by left|done]].
        * right. exists c. split; [by right|done].
      + lia.
      + intros c [->|Hc]%elem_of_cons; [lia|by apply Hall]. }
  destruct (H (f a)) as (Hin & Hle & Hall). split.
  - destruct Hin as [Hin|(c & Hc & Hfc)].
    + exists a. split; [by left|done].
    + exists c. split; [by right|done].
  - intros c [->|Hc]%elem_of_cons; [done|by apply Hall].
Qed.

Lemma translate_spec (cs : list coord) :
  cs <> [] ->
  exists d : coord,
    translate cs
    = Some (map (fun x : coord => (x.1.1 - d.1.1, x.1.2 - d.1.2, x.2 - d.2)%Z) cs)
    /\ origin_translated
         (list_to_set
            (map (fun x : coord => (x.1.1 - d.1.1, x.1.2 - d.1.2, x.2 - d.2)%Z)
               cs)).
Proof.
  intros Hne. unfold translate.
  destruct (np_min (map (fun x : coord => x.1.1) cs)) as [mx|] eqn:Hx;
    [|by destruct cs].
  destruct (np_min (map (fun x : coord => x.1.2) cs)) as [my|] eqn:Hy;
    [|by destruct cs].
  destruct (np_min (map (fun x : coord => x.2) cs)) as [mz|] eqn:Hz;
    [|by destruct cs].
  exists (mx, my, mz). split; [reflexivity|].
  apply np_min_spec in Hx as [(cx & Hcx & Hmx) Hallx].
  apply np_min_spec in Hy as [(cy & Hcy & Hmy) Hally].
  apply np_min_spec in Hz as [(cz & Hcz & Hmz) Hallz].
  intros i Hi. simpl.
  destruct i as [|[|[|i]]]; [| | |lia]; split.
  - eexists. split; [apply elem_of_list_to_set, elem_of_list_map; by exists cx|].
    simpl. lia.
  - intros c (q & -> & Hq)%elem_of_list_to_set%elem_of_list_map. simpl.
    specialize (Hallx q Hq). lia.
  - eexists. split; [apply elem_of_list_to_set, elem_of_list_map; by exists cy|].
    simpl. lia.
  - intros c (q & -> & Hq)%elem_of_list_to_set%elem_of_list_map. simpl.
    specialize (Hally q Hq). lia.
  - eexists. split; [apply elem_of_list_to_set, elem_of_list_map; by exists cz|].
    simpl. lia.
  - intros c (q & -> & Hq)%elem_of_list_to_set%elem_of_list_map. simpl.
    specialize (Hallz q Hq). lia.
Qed.

(** ** One candidate *)

Lemma foldlM_snoc {A B : Type} (f : B -> A -> option B) b l a :
  foldlM f b (l ++ [a]) = b' ← foldlM f b l; f b' a.
Proof.
  revert b. induction l as [|x l IH]; intros b; simpl.
  - by destruct (f b a).
  - destruct (f b x) as [b'|]; simpl; [apply IH|done].
Qed.

#[local] Instance shift_inj (d : coord) :
  Inj (=) (=) (fun x : coord => (x.1.1 - d.1.1, x.1.2 - d.1.2, x.2 - d.2)%Z).
Proof.
  intros [[x1 y1] z1] [[x2 y2] z2] [= H1 H2 H3]. repeat f_equal; lia.
Qed.

#[local] Instance digits5_Inj : Inj (=) (=) digits5.
Proof. intros x y. apply digits5_inj. Qed.

(** Below [binom 125 k] no exception is raised: the candidate is
    either rejected by the connectivity filter or canonical. *)
Lemma candidate_spec k r :
  (r < binom 125 k)%N ->
  candidate k r = Some None
  \/ exists c, candidate k r = Some (Some c) /\ canonical k c.
Proof.
  intros Hr. unfold candidate. rewrite unrank_kSubset_eq.
  destruct (unrank_from_spec k 125 r Hr) as (Hlen & Hall & Hdec & _).
  set (l := unrank_from k 125 r) in *.
  rewrite (mapM_total decode_rank digits5 l).
  2:{ intros x Hx. rewrite Forall_forall in Hall. by apply decode_rank_total, Hall. }
  cbn [mbind option_bind]. rewrite num_regions_total. cbn [mbind option_bind].
  destruct (decide (_ <> 1)) as [Hn|Hn]; [by left|right].
  apply dec_stable in Hn.
  assert (map digits5 l <> []) as Hne.
  { intros Hnil. rewrite Hnil in Hn. by vm_compute in Hn. }
  destruct (translate_spec _ Hne) as (d & Htr & Horig).
  rewrite Htr. cbn [mbind option_bind]. eexists. split; [reflexivity|].
  split_and!.
  - by rewrite !length_map.
  - apply (NoDup_fmap_2 _), (NoDup_fmap_2 digits5), decreasing_NoDup, Hdec.
  - by rewrite num_regions_total, face_matrix_shift, Hn.
  - exact Horig.
Qed.

Lemma canonical_nonempty k c : canonical k c -> c <> [].
Proof. intros (_ & _ & _ & H). by apply origin_translated_nonempty. Qed.

Lemma check_poly_is_Some p c : c <> [] -> is_Some (check_poly_isomorphism p c).
Proof.
  intros Hc. destruct (reflectPoints_triple c Hc) as (P & HP & _).
  unfold check_poly_isomorphism. rewrite HP.
  apply search_is_Some. intros y Hy. enum Hy; apply search_pure_is_Some.
Qed.

(** ** The enumeration loop *)

Lemma catalog_empty k : canonical_catalog k 0 [].
Proof.
  split_and!.
  - constructor.
  - intros i j p q _ Hp. by rewrite lookup_nil in Hp.
  - exists []. split_and!; [constructor..|]. intros r c Hr. lia.
Qed.

Lemma catalog_skip k n L :
  canonical_catalog k (N.of_nat n) L ->
  candidate k (N.of_nat n) = Some None ->
  canonical_catalog k (N.of_nat (S n)) L.
Proof.
  intros (Hcan & Hpair & rs & Hsort & Hlt & Hcand & Hcov) Hnone.
  split_and!; [done|done|]. exists rs. split_and!; [done| |done|].
  - eapply Forall_impl; [exact Hlt|]. simpl. lia.
  - intros r c Hr Hc. destruct (decide (r = N.of_nat n)) as [->|Hne].
    + congruence.
    + apply Hcov; [lia|done].
Qed.

Lemma catalog_duplicate k n L c :
  canonical_catalog k (N.of_nat n) L ->
  candidate k (N.of_nat n) = Some (Some c) ->
  search (fun alreadyAdded => check_poly_isomorphism alreadyAdded c) L
  = Some true ->
  canonical_catalog k (N.of_nat (S n)) L.
Proof.
  intros (Hcan & Hpair & rs & Hsort & Hlt & Hcand & Hcov) Hc Hfound.
  split_and!; [done|done|]. exists rs. split_and!; [done| |done|].
  - eapply Forall_impl; [exact Hlt|]. simpl. lia.
  - intros r c' Hr Hc'. destruct (decide (r = N.of_nat n)) as [->|Hne].
    + assert (c' = c) as -> by congruence.
      apply search_true_inv in Hfound as (p & Hp & Hiso).
      apply list_elem_of_lookup in Hp as [i Hi].
      destruct (Forall2_lookup_r _ _ _ _ _ Hcand Hi) as (r' & Hr' & _).
      exists i, r', p. split_and!; [done|done| |done].
      rewrite Forall_forall in Hlt.
      assert (r' ∈ rs) as Hin by (apply list_elem_of_lookup; by exists i).
      specialize (Hlt r' Hin). simpl in Hlt. lia.
    + apply Hcov; [lia|done].
Qed.

Lemma catalog_append k n L c :
  canonical_catalog k (N.of_nat n) L ->
  candidate k (N.of_nat n) = Some (Some c) ->
  canonical k c ->
  search (fun alreadyAdded => check_poly_isomorphism alreadyAdded c) L
  = Some false ->
  canonical_catalog k (N.of_nat (S n)) (L ++ [c]).
Proof.
  intros (Hcan & Hpair & rs & Hsort & Hlt & Hcand & Hcov) Hc Hcanc Hfound.
  rewrite search_false_iff in Hfound.
  pose proof (canonical_nonempty k c Hcanc) as Hne.
  pose proof (Forall2_length _ _ _ Hcand) as Hlen.
  split_and!.
  - apply Forall_app. split; [done|by constructor].
  - intros i j p q Hij Hp Hq.
    destruct (decide (i < length L)) as [Hi|Hi];
      destruct (decide (j < length L)) as [Hj|Hj].
    + rewrite lookup_app_l in Hp, Hq by done. by eapply Hpair.
    + rewrite lookup_app_l in Hp by done.
      rewrite lookup_app_r in Hq by lia.
      apply list_lookup_singleton_Some in Hq as [_ <-].
      apply Hfound, list_elem_of_lookup. by exists i.
    + rewrite lookup_app_r in Hp by lia.
      rewrite lookup_app_l in Hq by done.
      apply list_lookup_singleton_Some in Hp as [_ <-].
      assert (q ∈ L) as HqL by (apply list_elem_of_lookup; by exists j).
      rewrite Forall_forall in Hcan. pose proof (Hcan q HqL) as Hcanq.
      destruct (check_poly_is_Some c q (canonical_nonempty k q Hcanq))
        as [[] Hb]; [|done].
      apply check_poly_sym in Hb; [|by destruct Hcanq as (_ & _ & _ & ?)].
      rewrite (Hfound q HqL) in Hb. done.
    + rewrite lookup_app_r in Hp, Hq by lia.
      apply list_lookup_singleton_Some in Hp as [Hp _].
      apply list_lookup_singleton_Some in Hq as [Hq _]. lia.
  - exists (rs ++ [N.of_nat n]). split_and!.
    + apply StronglySorted_app_2; [|done|repeat constructor].
      intros x y Hx Hy. apply list_elem_of_singleton in Hy as ->.
      rewrite Forall_forall in Hlt. by apply Hlt.
    + apply Forall_app. split.
      * eapply Forall_impl; [exact Hlt|]. simpl. lia.
      * repeat constructor. lia.
    + apply Forall2_app; [done|]. by repeat constructor.
    + intros r c' Hr Hc'. destruct (decide (r = N.of_nat n)) as [->|Hnr].
      * assert (c' = c) as -> by congruence.
        exists (length L), (N.of_nat n), c. split_and!.
        -- rewrite <- Hlen. by rewrite lookup_app_r, Nat.sub_diag by lia.
        -- by rewrite lookup_app_r, Nat.sub_diag by lia.
        -- lia.
        -- by apply check_poly_refl.
      * destruct (Hcov r c') as (i & r' & p & Hi & Hp & Hle & Hiso); [lia|done|].
        exists i, r', p. split_and!; [|  |done|done].
        -- apply lookup_app_l_Some, Hi.
        -- apply lookup_app_l_Some, Hp.
Qed.

Lemma enumeration_loop k n :
  (N.of_nat n <= binom 125 k)%N ->
  exists L,
    foldlM (polycube_step k) [] (map N.of_nat (seq 0 n)) = Some L
    /\ canonical_catalog k (N.of_nat n) L.
Proof.
  induction n as [|n IH]; intros Hn.
  - exists []. split; [done|apply catalog_empty].
  - destruct IH as (L & HL & Hcat); [lia|].
    rewrite seq_S, map_app. cbn [map plus].
    rewrite foldlM_snoc, HL. cbn [mbind option_bind].
    unfold polycube_step.
    destruct (candidate_spec k (N.of_nat n)) as [Hc|(c & Hc & Hcan)]; [lia| |];
      rewrite Hc; cbn [mbind option_bind].
    + exists L. split; [done|by apply catalog_skip].
    + destruct (search_is_Some
                  (fun alreadyAdded => check_poly_isomorphism alreadyAdded c) L)
        as [[] Hs].
      { intros p _. eapply check_poly_is_Some, canonical_nonempty, Hcan. }
      * rewrite Hs. exists L. split; [done|by eapply catalog_duplicate].
      * rewrite Hs. exists (L ++ [c]). split; [done|by apply catalog_append].
Qed.


(** ** The catalogs of size one and two *)

Lemma catalog_of_size_1 :
  get_polycubes_of_size 1 = Some [[(0, 0, 0)%Z]].
Proof. vm_compute. reflexivity. Qed.

Lemma catalog_of_size_2 :
  get_polycubes_of_size 2
  = Some [[(0, 0, 1)%Z; (0, 0, 0)%Z]; [(0, 1, 0)%Z; (0, 0, 0)%Z]].
Proof. vm_compute. reflexivity. Qed.

(** C2, as amended.  Over the 5x5x5 box with the planar group,
    [get_polycubes_of_size 1] returns exactly one shape and
    [get_polycubes_of_size 2] returns exactly two: the face-adjacent pair
    along the third axis and the face-adjacent pair along the second
    axis, which no transform of the planar group maps onto each other. *)
Theorem enumeration_cardinality :
  (exists L, get_polycubes_of_size 1 = Some L /\ length L = 1)
  /\ (exists L, get_polycubes_of_size 2 = Some L /\ length L = 2
                /\ L = [[(0, 0, 1)%Z; (0, 0, 0)%Z]; [(0, 1, 0)%Z; (0, 0, 0)%Z]]).
Proof.
  split.
  - eexists. split; [apply catalog_of_size_1|reflexivity].
  - eexists. split; [apply catalog_of_size_2|]. split; reflexivity.
Qed.

(** C2 as stated fails: the catalog of size two does not have exactly
    one entry. *)
Lemma size_2_catalog_not_single :
  ~ exists L, get_polycubes_of_size 2 = Some L /\ length L = 1.
Proof.
  intros (L & HL & Hlen). rewrite catalog_of_size_2 in HL.
  injection HL as <-. discriminate.
Qed.

(** ** [checkTree]: from the matrix to the edge list *)

Lemma entry_zeros n i j : entry (zeros n) i j = false.
Proof.
  unfold entry, zeros. destruct (replicate n (replicate n false) !! i) as [row|] eqn:Hi;
    [|done].
  apply lookup_replicate in Hi as [-> _]. simpl.
  destruct (replicate n false !! j) as [b|] eqn:Hj; [|done].
  by apply lookup_replicate in Hj as [-> _].
Qed.

Lemma zeros_well_shaped n : well_shaped n (zeros n).
Proof.
  split; [apply length_replicate|].
  apply Forall_replicate. apply length_replicate.
Qed.

Lemma set_entry_spec n A (e : edge_t) :
  well_shaped n A -> e.1 < n -> e.2 < n ->
  exists A', set_entry A e = Some A' /\ well_shaped n A'
    /\ forall i j, entry A' i j = entry A i j || bool_decide ((i, j) = e).
Proof.
  intros [Hlen Hrows] H1 H2. unfold set_entry.
  destruct e as [a b]. cbn [fst snd] in *.
  destruct (lookup_lt_is_Some_2 A a) as [row Hrow]; [lia|].
  assert (length row = n) as Hrowlen.
  { rewrite Forall_forall in Hrows. apply Hrows, list_elem_of_lookup. eauto. }
  destruct (lookup_lt_is_Some_2 row b) as [x Hx]; [lia|].
  rewrite Hrow. cbn [mbind option_bind]. rewrite Hx. cbn [mbind option_bind].
  eexists. split; [reflexivity|]. split.
  - split; [by rewrite length_insert|].
    apply Forall_insert; [done|]. by rewrite length_insert.
  - intros i j. unfold entry. destruct (decide (i = a)) as [->|Hi].
    + rewrite list_lookup_insert_eq, Hrow by lia. cbn [mbind option_bind].
      destruct (decide (j = b)) as [->|Hj].
      * rewrite list_lookup_insert_eq by lia. simpl.
        rewrite bool_decide_eq_true_2 by done. by rewrite orb_true_r.
      * rewrite list_lookup_insert_ne by done.
        rewrite bool_decide_eq_false_2; [by rewrite orb_false_r|].
        intros [= ->]. done.
    + rewrite list_lookup_insert_ne by done.
      rewrite bool_decide_eq_false_2; [by rewrite orb_false_r|].
      intros [= -> _]. done.
Qed.

Lemma fill_spec n l : forall A,
  well_shaped n A -> Forall (fun e : edge_t => e.1 < n /\ e.2 < n) l ->
  exists A', foldlM set_entry A l = Some A' /\ well_shaped n A'
    /\ forall i j, entry A' i j = entry A i j || bool_decide ((i, j) ∈ l).
Proof.
  induction l as [|e l IH]; intros A HA Hl.
  - exists A. split_and!; [done|done|]. intros i j.
    rewrite bool_decide_eq_false_2; [by rewrite orb_false_r|].
    apply not_elem_of_nil.
  - apply Forall_cons in Hl as [[He1 He2] Hl].
    destruct (set_entry_spec n A e HA He1 He2) as (A1 & HA1 & Hws1 & Hent1).
    destruct (IH A1 Hws1 Hl) as (A' & HA' & Hws' & Hent').
    exists A'. split_and!; [|done|].
    + simpl. rewrite HA1. exact HA'.
    + intros i j. rewrite Hent', Hent1, <- orb_assoc. f_equal.
      destruct (decide ((i, j) = e)) as [<-|Hne].
      * rewrite (bool_decide_eq_true_2 ((i, j) = (i, j))) by done.
        rewrite (bool_decide_eq_true_2 ((i, j) ∈ (i, j) :: l)) by (by left).
        done.
      * rewrite (bool_decide_eq_false_2 _ Hne). simpl.
        apply bool_decide_ext. rewrite elem_of_cons.
        split; [by right|]. by intros [?|?].
Qed.

(** *** The graph queries only look at the order and at the edges *)

Lemma iter_ext {A : Type} (f g : A -> A) n x :
  (forall y, f y = g y) -> Nat.iter n f x = Nat.iter n g x.
Proof. intros H. induction n as [|n IH]; simpl; [done|]. by rewrite IH, H. Qed.

Lemma existsb_pointwise {A : Type} (f g : A -> bool) l :
  (forall x, f x = g x) -> existsb f l = existsb g l.
Proof. intros H. induction l as [|a l IH]; simpl; [done|]. by rewrite H, IH. Qed.

Lemma forallb_pointwise {A : Type} (f g : A -> bool) l :
  (forall x, f x = g x) -> forallb f l = forallb g l.
Proof. intros H. induction l as [|a l IH]; simpl; [done|]. by rewrite H, IH. Qed.

Section graph_ext.
Context (G G' : Graph).
Hypothesis Horder : order G = order G'.
Hypothesis Hedge : forall i j, edge G i j = edge G' i j.

Lemma expand_ext R : expand G R = expand G' R.
Proof.
  unfold expand. rewrite Horder. apply List.filter_ext. intros v.
  f_equal. apply existsb_pointwise. intros u. apply Hedge.
Qed.

Lemma reachable_ext u v : reachable G u v = reachable G' u v.
Proof.
  unfold reachable. rewrite Horder. f_equal. apply iter_ext, expand_ext.
Qed.

Lemma is_tree_ext : is_tree G = is_tree G'.
Proof.
  unfold is_tree, number_of_edges, is_connected. rewrite Horder.
  destruct (decide (order G' = 0)); [done|]. f_equal. f_equal.
  - f_equal. f_equal. apply List.filter_ext. intros ij. by rewrite Hedge.
  - apply forallb_pointwise. intros v. apply reachable_ext.
Qed.
End graph_ext.

Lemma checkTree_spec n l :
  Forall (fun e : edge_t => e.1 < n /\ e.2 < n) l ->
  checkTree l n = is_tree (edges_graph n l).
Proof.
  intros Hl. unfold checkTree.
  destruct (fill_spec n l (zeros n) (zeros_well_shaped n) Hl)
    as (A & -> & [Hlen _] & Hent).
  cbn [mbind option_bind]. apply is_tree_ext; [done|].
  intros i j. simpl. by rewrite !Hent, !entry_zeros.
Qed.


(** ** [brute_force_trees]: which edges a subset selects *)

Lemma edge_index_spec m j :
  j < m -> edge_index m j = match j with 0 => m - 1 | S j' => j' end.
Proof.
  intros Hj. unfold edge_index. destruct j as [|j'].
  - simpl. apply Nat.mod_small. lia.
  - replace (S j' + m - 1) with (j' + 1 * m) by lia.
    rewrite Nat.Div0.mod_add. apply Nat.mod_small. lia.
Qed.

Lemma edge_index_lt m j : j < m -> edge_index m j < m.
Proof. intros Hj. rewrite edge_index_spec by done. destruct j; lia. Qed.

Lemma edge_index_inj m j j' :
  j < m -> j' < m -> edge_index m j = edge_index m j' -> j = j'.
Proof.
  intros Hj Hj'. rewrite !edge_index_spec by done. destruct j, j'; lia.
Qed.


(** [E[j-1]], with [j = 0] wrapping to the last edge. *)
Lemma py_index_edge (E : list edge_t) j :
  j < length E ->
  py_index E (Z.of_nat j - 1) = Some (edge_of E j)
  /\ E !! edge_index (length E) j = Some (edge_of E j).
Proof.
  intros Hj. unfold edge_of, py_index.
  destruct (lookup_lt_is_Some_2 E (edge_index (length E) j)) as [e He];
    [by apply edge_index_lt|].
  rewrite He. simpl. split; [|done]. rewrite <- He.
  rewrite edge_index_spec by done.
  destruct j as [|j'].
  - rewrite decide_False by lia. rewrite decide_True by lia. f_equal. lia.
  - rewrite decide_True by lia. f_equal. lia.
Qed.

Lemma edge_of_elem (E : list edge_t) j : j < length E -> edge_of E j ∈ E.
Proof.
  intros Hj. destruct (py_index_edge E j Hj) as [_ H].
  apply list_elem_of_lookup. eauto.
Qed.

Lemma edge_of_inj (E : list edge_t) j j' :
  NoDup E -> j < length E -> j' < length E ->
  edge_of E j = edge_of E j' -> j = j'.
Proof.
  intros HE Hj Hj' Heq.
  destruct (py_index_edge E j Hj) as [_ H].
  destruct (py_index_edge E j' Hj') as [_ H'].
  rewrite Heq in H.
  apply (edge_index_inj (length E)); [done|done|].
  by apply (NoDup_lookup E _ _ _ HE H H').
Qed.


Lemma edge_subset_spec (E : list edge_t) l :
  Forall (fun j => j < length E) l ->
  edge_subset E l = Some (map (edge_of E) (reverse l)).
Proof.
  intros Hl. unfold edge_subset. apply mapM_total.
  intros j Hj. rewrite elem_of_reverse in Hj. rewrite Forall_forall in Hl.
  by destruct (py_index_edge E j (Hl j Hj)) as [? _].
Qed.

(** What a rank in range builds. *)
Lemma built_subset_spec n (E : list edge_t) i :
  (i < binom (length E) (n - 1))%N ->
  exists u, unrank_kSubset i (n - 1) (length E) = u
    /\ length u = n - 1 /\ Forall (fun j => j < length E) u
    /\ decreasing u /\ rank_of u = i
    /\ built_subset n E i = Some (map (edge_of E) (reverse u)).
Proof.
  intros Hi. unfold built_subset. rewrite unrank_kSubset_eq.
  destruct (unrank_from_spec _ _ _ Hi) as (Hlen & Hall & Hdec & Hrk).
  eexists. split_and!; [reflexivity|done..|]. by apply edge_subset_spec.
Qed.

Lemma image_NoDup (E : list edge_t) u :
  NoDup E -> Forall (fun j => j < length E) u -> NoDup u ->
  NoDup (map (edge_of E) u).
Proof.
  intros HE Hu Hnd. apply (NoDup_fmap_2_strong (edge_of E)); [|done].
  rewrite Forall_forall in Hu.
  intros x y Hx Hy. apply edge_of_inj; [done|by apply Hu..].
Qed.




Lemma built_subset_elems n (E : list edge_t) i l :
  (i < binom (length E) (n - 1))%N -> built_subset n E i = Some l ->
  forall e, e ∈ l -> e ∈ E.
Proof.
  intros Hi Hl e He.
  destruct (built_subset_spec n E i Hi) as (u & _ & _ & Hu & _ & _ & Hb).
  rewrite Hb in Hl. injection Hl as <-.
  apply elem_of_list_map in He as (j & -> & Hj). rewrite elem_of_reverse in Hj.
  rewrite Forall_forall in Hu. by apply edge_of_elem, Hu.
Qed.





(** ** Counting the edges of a graph given by an edge list *)

Lemma NoDup_list_prod {A B : Type} (l1 : list A) (l2 : list B) :
  NoDup l1 -> NoDup l2 -> NoDup (list_prod l1 l2).
Proof.
  intros H1 H2. induction H1 as [|x l1 Hx _ IH]; simpl; [constructor|].
  apply NoDup_app. split_and!; [|  |done].
  - apply (NoDup_fmap_2 (pair x)), H2.
  - intros [a b] Ha Hb.
    apply elem_of_list_map in Ha as (y & [= -> ->] & _).
    apply list_elem_of_In, in_prod_iff in Hb as [Hb _].
    by apply list_elem_of_In in Hb.
Qed.

Lemma NoDup_bool_filter {A : Type} (f : A -> bool) l :
  NoDup l -> NoDup (List.filter f l).
Proof.
  induction 1 as [|x l Hx _ IH]; simpl; [constructor|].
  destruct (f x); [|done]. constructor; [|done].
  rewrite list_elem_of_In, filter_In, <- list_elem_of_In. tauto.
Qed.

Lemma norm_elem (l : list edge_t) i j :
  (i, j) ∈ map norm l <-> i <= j /\ ((i, j) ∈ l \/ (j, i) ∈ l).
Proof.
  rewrite elem_of_list_map. unfold norm. split.
  - intros ([a b] & [= -> ->] & Hab). cbn [fst snd] in *. split; [lia|].
    destruct (Nat.le_ge_cases a b).
    + left. by rewrite Nat.min_l, Nat.max_r by done.
    + right. by rewrite Nat.min_r, Nat.max_l by done.
  - intros [Hij [H|H]].
    + exists (i, j). split; [|done]. cbn [fst snd].
      by rewrite Nat.min_l, Nat.max_r by done.
    + exists (j, i). split; [|done]. cbn [fst snd].
      by rewrite Nat.min_r, Nat.max_l by done.
Qed.

Lemma number_of_edges_spec n (l : list edge_t) :
  Forall (fun e : edge_t => e.1 < n /\ e.2 < n) l ->
  number_of_edges (edges_graph n l)
  = size (list_to_set (map norm l) : gset edge_t).
Proof.
  intros Hl. unfold number_of_edges.
  rewrite <- (size_list_to_set (C:=gset edge_t)).
  - f_equal. apply set_eq. intros [i j].
    rewrite !elem_of_list_to_set, norm_elem, list_elem_of_In, filter_In, in_prod_iff.
    rewrite !in_seq. cbn [order edge edges_graph fst snd].
    rewrite andb_true_iff, orb_true_iff, !bool_decide_eq_true, Nat.leb_le.
    rewrite Forall_forall in Hl. split; [tauto|].
    intros [Hij H]. split; [|done].
    destruct H as [H|H]; specialize (Hl _ H); cbn [fst snd] in Hl; lia.
  - apply NoDup_bool_filter, NoDup_list_prod; apply NoDup_seq.
Qed.

(** ** Reaching the nodes along a walk *)

Section walk.
Context (G : Graph) (vs : list nat).
Hypothesis Hnodes : forall v, v ∈ vs -> v < order G.
Hypothesis Hstep : forall i a b,
  vs !! i = Some a -> vs !! S i = Some b ->
  edge G a b = true /\ edge G b a = true.

Lemma expand_keep R v : v < order G -> In v R -> In v (expand G R).
Proof.
  intros Hv Hin. apply filter_In. split; [apply in_seq; lia|].
  apply orb_true_iff. left. apply existsb_exists. exists v.
  split; [done|apply Nat.eqb_refl].
Qed.

Lemma expand_edge R u v :
  v < order G -> In u R -> edge G u v = true -> In v (expand G R).
Proof.
  intros Hv Hin He. apply filter_In. split; [apply in_seq; lia|].
  apply orb_true_iff. right. apply existsb_exists. by exists u.
Qed.

Lemma walk_reach d : forall i j u v,
  vs !! j = Some u -> vs !! i = Some v ->
  i <= j + d -> j <= i + d ->
  In v (Nat.iter d (expand G) [u]).
Proof.
  induction d as [|d IH]; intros i j u v Hu Hv H1 H2.
  - assert (i = j) as -> by lia. left. congruence.
  - cbn [Nat.iter nat_rect].
    assert (v < order G) as Hvn
      by (apply Hnodes, list_elem_of_lookup; eauto).
    destruct (decide (i = j + S d)) as [->|Hne1].
    + destruct (lookup_lt_is_Some_2 vs (j + d)) as [w Hw].
      { apply lookup_lt_Some in Hv. lia. }
      apply (expand_edge _ w); [done| |].
      * apply (IH (j + d) j u w); [done|done|lia|lia].
      * replace (j + S d) with (S (j + d)) in Hv by lia.
        by destruct (Hstep _ _ _ Hw Hv).
    + destruct (decide (j = i + S d)) as [->|Hne2].
      * destruct (lookup_lt_is_Some_2 vs (S i)) as [w Hw].
        { apply lookup_lt_Some in Hu. lia. }
        apply (expand_edge _ w); [done| |].
        -- apply (IH (S i) (i + S d) u w); [done|done|lia|lia].
        -- by destruct (Hstep _ _ _ Hv Hw).
      * apply expand_keep; [done|].
        apply (IH i j u v); [done|done|lia|lia].
Qed.

Lemma walk_reachable u v :
  u ∈ vs -> v ∈ vs -> length vs <= S (order G) -> reachable G u v = true.
Proof.
  intros [j Hj]%list_elem_of_lookup [i Hi]%list_elem_of_lookup Hlen.
  unfold reachable. apply existsb_exists. exists v.
  split; [|apply Nat.eqb_refl].
  pose proof (lookup_lt_Some _ _ _ Hj). pose proof (lookup_lt_Some _ _ _ Hi).
  apply (walk_reach (order G) i j u v); [done|done|lia|lia].
Qed.
End walk.

(** ** Simple paths *)

Lemma norm_swap a b : norm (a, b) = norm (b, a).
Proof. unfold norm. cbn [fst snd]. f_equal; lia. Qed.

Lemma norm_eq_inv a b c d :
  norm (a, b) = norm (c, d) -> (a = c /\ b = d) \/ (a = d /\ b = c).
Proof. unfold norm. cbn [fst snd]. intros [= H1 H2]. lia. Qed.

Lemma has_edge_norm (E : list edge_t) a b :
  has_edge E a b <-> norm (a, b) ∈ map norm E.
Proof.
  rewrite elem_of_list_map. split.
  - intros [H|H]; [by exists (a, b)|exists (b, a); split; [apply norm_swap|done]].
  - intros ([c d] & Hn & Hin).
    apply norm_eq_inv in Hn as [[-> ->]|[-> ->]]; [by left|by right].
Qed.

Lemma has_edge_sym (E : list edge_t) a b : has_edge E a b -> has_edge E b a.
Proof. intros [H|H]; [by right|by left]. Qed.

Lemma has_edge_graph n (E : list edge_t) a b :
  has_edge E a b -> edge (edges_graph n E) a b = true.
Proof.
  intros H. cbn [edge edges_graph]. apply orb_true_iff.
  destruct H as [H|H]; [left|right]; by apply bool_decide_eq_true.
Qed.

Lemma NoDup_consecutive vs : NoDup vs -> NoDup (map norm (zip vs (tail vs))).
Proof.
  induction 1 as [|a vs Ha Hvs IH]; [constructor|].
  destruct vs as [|b rest]; [constructor|].
  change (zip (a :: b :: rest) (tail (a :: b :: rest)))
    with ((a, b) :: zip (b :: rest) (tail (b :: rest))).
  cbn [map tail] in *. constructor; [|exact IH].
  intros ([c d] & Hn & Hcd)%elem_of_list_map.
  pose proof (elem_of_zip_l _ _ _ _ Hcd) as Hc.
  pose proof (elem_of_zip_r _ _ _ _ Hcd) as Hd.
  apply norm_eq_inv in Hn as [[-> _]|[-> _]]; [done|].
  apply Ha. by right.
Qed.

Lemma tail_length {A : Type} (l : list A) : length (tail l) = length l - 1.
Proof. destruct l; simpl; lia. Qed.

Lemma tail_elem {A : Type} (l : list A) x : x ∈ tail l -> x ∈ l.
Proof. destruct l; [done|]. by right. Qed.

Lemma choose_diag n : choose n n = 1.
Proof.
  induction n as [|n IH]; [done|].
  cbn [choose]. rewrite IH, choose_small by lia. done.
Qed.

Lemma binom_diag n : binom n n = 1%N.
Proof. by rewrite binom_choose, choose_diag. Qed.

Section simple_path.
Context (m : nat) (E : list edge_t) (vs : list nat).
Hypothesis Hm : 1 <= m.
Hypothesis Hlen : length E = m - 1.
Hypothesis Hvs : vs ≡ₚ seq 0 m.
Hypothesis Hjoin : forall i a b,
  vs !! i = Some a -> vs !! S i = Some b -> has_edge E a b.

Lemma path_nodes v : v ∈ vs <-> v < m.
Proof. rewrite Hvs, elem_of_seq. lia. Qed.

Lemma path_vs_NoDup : NoDup vs.
Proof. rewrite Hvs. apply NoDup_seq. Qed.

Lemma path_vs_length : length vs = m.
Proof. by rewrite Hvs, length_seq. Qed.

Lemma path_pairs : map norm (zip vs (tail vs)) ≡ₚ map norm E.
Proof.
  apply submseteq_length_Permutation.
  - apply NoDup_submseteq; [apply NoDup_consecutive, path_vs_NoDup|].
    intros p ([a b] & -> & Hab)%elem_of_list_map.
    apply has_edge_norm.
    apply list_elem_of_lookup in Hab as [i Hi].
    apply lookup_zip_Some in Hi as [Ha Hb]. rewrite lookup_tail in Hb.
    by apply (Hjoin i).
  - rewrite !length_map, length_zip, Hlen, tail_length, path_vs_length. lia.
Qed.

Lemma path_norm_NoDup : NoDup (map norm E).
Proof. rewrite <- path_pairs. apply NoDup_consecutive, path_vs_NoDup. Qed.

Lemma path_NoDup : NoDup E.
Proof. apply (NoDup_fmap_1 norm), path_norm_NoDup. Qed.

Lemma path_endpoints : Forall (fun e : edge_t => e.1 < m /\ e.2 < m) E.
Proof.
  apply Forall_forall. intros [a b] Hab.
  assert (norm (a, b) ∈ map norm E) as Hn
    by (apply elem_of_list_map; by exists (a, b)).
  rewrite <- path_pairs in Hn.
  apply elem_of_list_map in Hn as ([c d] & Hn & Hcd).
  pose proof (elem_of_zip_l _ _ _ _ Hcd) as Hc.
  pose proof (elem_of_zip_r _ _ _ _ Hcd) as Hd.
  apply tail_elem in Hd.
  apply path_nodes in Hc, Hd. cbn [fst snd].
  apply norm_eq_inv in Hn as [[-> ->]|[-> ->]]; lia.
Qed.

Lemma path_is_tree : checkTree E m = Some true.
Proof.
  rewrite checkTree_spec by apply path_endpoints.
  unfold is_tree. cbn [order edges_graph].
  destruct (decide (m = 0)); [lia|]. f_equal. apply andb_true_iff. split.
  - rewrite number_of_edges_spec by apply path_endpoints.
    rewrite size_list_to_set by apply path_norm_NoDup.
    rewrite length_map, Hlen. apply Nat.eqb_refl.
  - unfold is_connected. apply forallb_forall. intros v Hv%in_seq.
    apply (walk_reachable _ vs).
    + intros x Hx. by apply path_nodes.
    + intros i a b Ha Hb. pose proof (Hjoin i a b Ha Hb) as H.
      split; apply has_edge_graph; [done|by apply has_edge_sym].
    + apply path_nodes. lia.
    + apply path_nodes. cbn [order edges_graph] in Hv. lia.
    + rewrite path_vs_length. cbn [order edges_graph]. lia.
Qed.
End simple_path.

Lemma has_edge_perm (E l : list edge_t) a b :
  l ≡ₚ E -> has_edge E a b -> has_edge l a b.
Proof. intros Hp. unfold has_edge. by rewrite Hp. Qed.

Lemma path_brute_force m (E : list edge_t) :
  2 <= m -> is_simple_path m E ->
  exists l, brute_force_trees m E = Some [l] /\ l ≡ₚ E /\ is_spanning_tree m l.
Proof.
  intros Hm (Hlen & vs & Hvs & Hjoin).
  assert (1 <= m) as Hm1 by lia.
  pose proof (path_NoDup m E vs Hm1 Hlen Hvs Hjoin) as HE.
  unfold brute_force_trees. destruct m as [|m']; [lia|].
  replace (S m' - 1) with m' in * by lia. rewrite Hlen, binom_diag.
  change (py_range 1) with [0%N]. cbn [foldlM].
  unfold brute_force_step. fold (built_subset (S m') E 0%N).
  destruct (built_subset_spec (S m') E 0%N) as (u & _ & Hu & Hall & Hdec & _ & Hb).
  { replace (S m' - 1) with m' by lia. rewrite Hlen, binom_diag. lia. }
  set (l := map (edge_of E) (reverse u)) in *.
  assert (l ≡ₚ E) as Hperm.
  { apply submseteq_length_Permutation.
    - apply NoDup_submseteq.
      + apply image_NoDup; [done|by apply Forall_reverse|].
        rewrite reverse_Permutation. by apply decreasing_NoDup.
      + intros e He. by apply (built_subset_elems (S m') E 0%N l);
          [replace (S m' - 1) with m' by lia; rewrite Hlen, binom_diag; lia|..].
    - unfold l. rewrite length_map, length_reverse, Hu, Hlen. lia. }
  assert (checkTree l (S m') = Some true) as Htree.
  { apply (path_is_tree (S m') l vs); [lia| |done|].
    - rewrite Hperm, Hlen. lia.
    - intros i a b Hia Hib. eapply has_edge_perm; [done|]. by eapply Hjoin. }
  rewrite Hb. cbn [mbind option_bind]. rewrite Htree. cbn [mbind option_bind].
  exists l. by split_and!.
Qed.

Ltac triangle_case H :=
  unfold has_edge in H; rewrite !elem_of_cons, !elem_of_nil in H;
  repeat (destruct H as [H|H]); try done; try subst; try discriminate.

Lemma triangle_brute_force (E : list edge_t) :
  is_triangle E ->
  exists T, brute_force_trees 3 E = Some T
    /\ length T = 3
    /\ NoDup (map (list_to_set (C:=gset edge_t)) T)
    /\ Forall (is_spanning_tree 3) T
    /\ Forall (fun l => length l = 2 /\ forall e, e ∈ l -> e ∈ E) T.
Proof.
  intros (Hlen & H01 & H12 & H02).
  destruct E as [|e1 [|e2 [|e3 [|e4 E]]]]; try discriminate Hlen.
  triangle_case H01; triangle_case H12; triangle_case H02;
    (eexists; split; [vm_compute; reflexivity|]);
    (split; [reflexivity|]);
    (split; [apply (bool_decide_unpack _); vm_compute; exact I|]);
    (split; [repeat constructor|]);
    repeat (constructor; [split; [reflexivity|];
                          intros e He; rewrite !elem_of_cons in *; tauto|]);
    constructor.
Qed.

(** C6.  For an edge list forming a simple path on [m >= 2] nodes,
    [brute_force_trees] returns exactly one spanning tree, made of the
    edges of the path; for an edge list forming a 3-cycle on 3 nodes it
    returns exactly three spanning trees with three different edge
    sets. *)
Theorem spanning_tree_counts :
  (forall m (E : list edge_t),
     2 <= m -> is_simple_path m E ->
     exists l, brute_force_trees m E = Some [l]
               /\ l ≡ₚ E /\ is_spanning_tree m l)
  /\ (forall E : list edge_t,
      is_triangle E ->
      exists T, brute_force_trees 3 E = Some T
        /\ length T = 3
        /\ NoDup (map (list_to_set (C:=gset edge_t)) T)
        /\ Forall (is_spanning_tree 3) T
        /\ Forall (fun l => length l = 2 /\ forall e, e ∈ l -> e ∈ E) T).
Proof. split; [apply path_brute_force|apply triangle_brute_force]. Qed.

Lemma spanning_tree_counts_witness :
  (exists l, brute_force_trees 3 [(0, 1); (2, 1)] = Some [l]
             /\ l ≡ₚ [(0, 1); (2, 1)] /\ is_spanning_tree 3 l)
  /\ (exists T, brute_force_trees 3 [(0, 1); (2, 1); (0, 2)] = Some T
                /\ length T = 3).
Proof.
  split.
  - apply (proj1 spanning_tree_counts 3 [(0, 1); (2, 1)]); [lia|].
    split; [reflexivity|]. exists [0; 1; 2]. split; [reflexivity|].
    intros i a b Ha Hb. destruct i as [|[|i]]; simpl in Ha, Hb.
    + injection Ha as <-. injection Hb as <-. left. by left.
    + injection Ha as <-. injection Hb as <-. right. right. by left.
    + destruct i; discriminate.
  - destruct (proj2 spanning_tree_counts [(0, 1); (2, 1); (0, 2)])
      as (T & HT & Hlen & _).
    + split; [reflexivity|]. split_and!.
      * left. by left.
      * right. right. by left.
      * left. right. right. by left.
    + by exists T.
Defined.


(** ** The checks of the source's test driver *)

Example lines_match :
  check_all_isomorphism d2 d3 = Some true
  /\ check_poly_isomorphism d2 d3 = Some true.
Proof. vm_compute. done. Qed.

Example zigzag_is_no_line :
  check_all_isomorphism d1 d2 = Some false
  /\ check_poly_isomorphism d1 d2 = Some false.
Proof. vm_compute. done. Qed.

Example zigzags_match_in_space_only :
  check_all_isomorphism d1 d4 = Some true
  /\ check_poly_isomorphism d1 d4 = Some false.
Proof. vm_compute. done. Qed.

Example unrank_first_and_last :
  unrank_kSubset 0 2 125 = [1; 0]
  /\ unrank_kSubset 7749 2 125 = [124; 123]
  /\ unrank_kSubset 5 3 5 = [4; 2; 0].
Proof. vm_compute. done. Qed.

Example decode_samples :
  decode_rank 0 = Some (0, 0, 0)%Z /\ decode_rank 7 = Some (0, 1, 2)%Z
  /\ decode_rank 124 = Some (4, 4, 4)%Z.
Proof. vm_compute. done. Qed.

(** ** More on [unrank_kSubset] *)









(** ** [taxi_distance] as a metric *)








(** ** The adjacency matrix and the number of regions *)



Lemma face_matrix_well_shaped p : well_shaped (length p) (face_matrix p).
Proof.
  unfold face_matrix. split; [by rewrite length_map|].
  apply Forall_forall. intros row Hrow.
  apply elem_of_list_map in Hrow as (a & -> & _). by rewrite length_map.
Qed.




Lemma filter_length_le {A : Type} (f : A -> bool) l :
  length (List.filter f l) <= length l.
Proof. induction l as [|a l IH]; simpl; [done|]. destruct (f a); simpl; lia. Qed.

Lemma components_bounds G :
  number_connected_components G <= order G
  /\ (1 <= order G -> 1 <= number_connected_components G).
Proof.
  unfold number_connected_components. split.
  - etrans; [apply filter_length_le|]. by rewrite length_seq.
  - intros H. destruct (order G) as [|n]; [lia|].
    cbn [seq List.filter forallb]. simpl. lia.
Qed.

(** X6.  [num_regions] never raises on a list of coordinate triples;
    the count is at most the number of cubes and at least [1] for a
    non-empty list. *)
Theorem num_regions_bounds (p : list coord) :
  exists c, num_regions p = Some c
    /\ c <= length p /\ (p <> [] -> 1 <= c).
Proof.
  eexists. split; [apply num_regions_total|].
  destruct (components_bounds (from_numpy_matrix (face_matrix p))) as [Hle Hge].
  cbn [order from_numpy_matrix] in *.
  destruct (face_matrix_well_shaped p) as [Hlen _]. rewrite Hlen in *.
  split; [done|]. intros Hp. apply Hge. destruct p; [done|simpl; lia].
Qed.

Lemma num_regions_bounds_witness :
  exists c, num_regions [(0, 0, 0)%Z; (2, 0, 0)%Z] = Some c /\ 1 <= c <= 2.
Proof.
  destruct (num_regions_bounds [(0, 0, 0)%Z; (2, 0, 0)%Z]) as (c & Hc & Hle & Hge).
  exists c. split; [exact Hc|]. split; [by apply Hge|exact Hle].
Defined.






(** ** More on the symmetry tests *)

Lemma check_all_is_Some p c : c <> [] -> is_Some (check_all_isomorphism p c).
Proof.
  intros Hc. destruct (reflectPoints_triple c Hc) as (P & HP & _).
  unfold check_all_isomorphism. rewrite HP.
  apply search_is_Some. intros y Hy. enum Hy; apply search_pure_is_Some.
Qed.

(** X8.  Each of the two symmetry tests raises exactly when its
    second polycube is the empty list; the first polycube never
    matters for that. *)
Theorem isomorphism_raises_iff_empty (p1 p2 : list coord) :
  (check_all_isomorphism p1 p2 = None <-> p2 = [])
  /\ (check_poly_isomorphism p1 p2 = None <-> p2 = []).
Proof.
  split; split.
  - intros H. destruct p2 as [|c p2]; [done|].
    destruct (check_all_is_Some p1 (c :: p2)) as [b Hb]; [done|congruence].
  - intros ->. reflexivity.
  - intros H. destruct p2 as [|c p2]; [done|].
    destruct (check_poly_is_Some p1 (c :: p2)) as [b Hb]; [done|congruence].
  - intros ->. reflexivity.
Qed.

Lemma search_ext {A : Type} (f g : A -> option bool) l :
  (forall x, f x = g x) -> search f l = search g l.
Proof. intros H. induction l as [|a l IH]; simpl; [done|]. by rewrite H, IH. Qed.

Lemma newCoordSet_set f (B B' : list coord) :
  list_to_set B =@{gset coord} list_to_set B' ->
  newCoordSet f B = newCoordSet f B'.
Proof.
  intros H. apply set_eq. intros c. rewrite !elem_of_newCoordSet.
  split; intros (q & -> & Hq); exists q; (split; [done|]);
    apply (elem_of_list_to_set (C:=gset coord)) in Hq;
    apply (elem_of_list_to_set (C:=gset coord)); [by rewrite <- H|by rewrite H].
Qed.

Lemma same_set_nil (B B' : list coord) :
  list_to_set B =@{gset coord} list_to_set B' -> B = [] -> B' = [].
Proof.
  intros H ->. destruct B' as [|c B']; [done|].
  assert (c ∈ (list_to_set (c :: B') : gset coord)) as Hc
    by (apply elem_of_list_to_set; by left).
  rewrite <- H in Hc. by apply elem_of_empty in Hc.
Qed.

Lemma reflectPoints_set (B B' : list coord) :
  list_to_set B =@{gset coord} list_to_set B' ->
  reflectPoints B = reflectPoints B'.
Proof.
  intros H. destruct (decide (B = [])) as [HB|HB].
  - by rewrite HB, (same_set_nil B B' H HB).
  - assert (B' <> []) as HB'.
    { intros HB'. apply HB. by apply (same_set_nil B' B). }
    destruct (reflectPoints_triple B HB) as (P & -> & HP).
    destruct (reflectPoints_triple B' HB') as (P' & -> & HP').
    rewrite H in HP.
    pose proof (axis_max_unique _ _ _ _ (HP 0 ltac:(lia)) (HP' 0 ltac:(lia))) as H0.
    pose proof (axis_max_unique _ _ _ _ (HP 1 ltac:(lia)) (HP' 1 ltac:(lia))) as H1.
    pose proof (axis_max_unique _ _ _ _ (HP 2 ltac:(lia)) (HP' 2 ltac:(lia))) as H2.
    cbn [pick] in H0, H1, H2. by rewrite H0, H1, H2.
Qed.

(** X9.  The two symmetry tests read their arguments as sets: the
    order of the cubes and repeated cubes do not change the answer. *)
Theorem isomorphism_of_sets (A A' B B' : list coord) :
  list_to_set A =@{gset coord} list_to_set A' ->
  list_to_set B =@{gset coord} list_to_set B' ->
  check_all_isomorphism A B = check_all_isomorphism A' B'
  /\ check_poly_isomorphism A B = check_poly_isomorphism A' B'.
Proof.
  intros HA HB. unfold check_all_isomorphism, check_poly_isomorphism.
  rewrite HA, (reflectPoints_set B B' HB). split.
  - apply search_ext. intros ijk.
    destruct (reflectPoints B' !! ijk.1.1) as [a|]; [|done].
    destruct (reflectPoints B' !! ijk.1.2) as [b|]; [|done].
    destruct (reflectPoints B' !! ijk.2) as [c|]; [|done].
    cbn [mbind option_bind]. apply search_ext. intros r.
    by rewrite (newCoordSet_set _ B B' HB).
  - apply search_ext. intros ij.
    destruct (reflectPoints B' !! ij.1) as [a|]; [|done].
    destruct (reflectPoints B' !! ij.2) as [b|]; [|done].
    cbn [mbind option_bind]. apply search_ext. intros r.
    by rewrite (newCoordSet_set _ B B' HB).
Qed.

Lemma isomorphism_of_sets_witness :
  check_all_isomorphism [(0, 0, 0)%Z; (1, 0, 0)%Z] [(0, 0, 0)%Z; (0, 1, 0)%Z]
  = check_all_isomorphism [(1, 0, 0)%Z; (0, 0, 0)%Z; (1, 0, 0)%Z]
      [(0, 1, 0)%Z; (0, 0, 0)%Z].
Proof.
  refine (proj1 (isomorphism_of_sets _ _ _ _ _ _)).
  - apply set_eq. intros c. rewrite !elem_of_list_to_set, !elem_of_cons. tauto.
  - apply set_eq. intros c. rewrite !elem_of_list_to_set, !elem_of_cons. tauto.
Defined.

Lemma check_true_nonempty_all A B :
  check_all_isomorphism A B = Some true -> B <> [].
Proof. by intros H ->. Qed.
Lemma check_true_nonempty_poly A B :
  check_poly_isomorphism A B = Some true -> B <> [].
Proof. by intros H ->. Qed.

Lemma permutations2_in_3 ij : ij ∈ permutations2 -> (ij.1, ij.2, 2) ∈ permutations3.
Proof. intros H. enum H; unfold permutations3; simpl; in_list. Qed.

(** X10.  Whatever [check_poly_isomorphism] accepts,
    [check_all_isomorphism] accepts as well: the planar moves are
    among the spatial ones. *)
Theorem planar_implies_full (A B : list coord) :
  check_poly_isomorphism A B = Some true ->
  check_all_isomorphism A B = Some true.
Proof.
  intros H. pose proof (check_true_nonempty_poly A B H) as HB.
  destruct (reflectPoints_triple B HB) as (P & HP & _).
  destruct (proj1 (check_poly_true_iff A B P HP) H) as (ij & r & Hij & Heq).
  apply (check_all_true_iff A B P HP).
  exists (ij.1, ij.2, 2), (r.1, r.2, false).
  split; [by apply permutations2_in_3|done].
Qed.

Lemma planar_implies_full_witness :
  check_all_isomorphism [(0, 0, 0)%Z; (1, 0, 0)%Z] [(0, 0, 0)%Z; (0, 1, 0)%Z]
  = Some true.
Proof. apply planar_implies_full. vm_compute. reflexivity. Defined.

Lemma coord_ext (c c' : coord) :
  (forall m, m < 3 -> axis c m = axis c' m) -> c = c'.
Proof.
  intros H. destruct c as [[x y] z], c' as [[x' y'] z'].
  pose proof (H 0 ltac:(lia)). pose proof (H 1 ltac:(lia)).
  pose proof (H 2 ltac:(lia)). simpl in *. congruence.
Qed.

Lemma pick_permute3 {A : Type} ijk (t : A * A * A) m :
  m < 3 -> pick (permute3 ijk t) m = pick t (pick ijk m).
Proof. intros Hm. by destruct m as [|[|[|m]]]; [..|lia]. Qed.

Lemma pick_compose_flags ijk1 r1 r2 m :
  m < 3 ->
  pick (compose_flags ijk1 r1 r2) m = xorb (pick r1 m) (pick r2 (pick ijk1 m)).
Proof. intros Hm. by destruct m as [|[|[|m]]]; [..|lia]. Qed.

Lemma map_all_compose ijk1 ijk2 r1 r2 (PC : Z * Z * Z) c :
  ijk1 ∈ permutations3 ->
  map_all ijk1 (permute3 ijk1 (permute3 ijk2 PC)) r1
    (map_all ijk2 (permute3 ijk2 PC) r2 c)
  = map_all (compose3 ijk1 ijk2) (permute3 (compose3 ijk1 ijk2) PC)
      (compose_flags ijk1 r1 r2) c.
Proof.
  intros H1. apply coord_ext. intros m Hm.
  pose proof (permutations3_range ijk1 m H1 Hm) as Hs.
  rewrite !map_all_axis by done.
  rewrite pick_compose_flags by done.
  unfold compose3.
  rewrite !pick_permute3 by done.
  destruct (pick r1 m), (pick r2 (pick ijk1 m)); cbn [xorb]; lia.
Qed.

Lemma compose3_permutations3 ijk1 ijk2 :
  ijk1 ∈ permutations3 -> ijk2 ∈ permutations3 ->
  compose3 ijk1 ijk2 ∈ permutations3.
Proof.
  intros H1 H2. enum H1; enum H2; unfold permutations3; cbn; in_list.
Qed.

Lemma newCoordSet_compose (f g h : coord -> coord) (A B C : list coord) :
  (forall c, f (g c) = h c) ->
  newCoordSet g C = list_to_set B ->
  newCoordSet f B = list_to_set A ->
  newCoordSet h C = list_to_set A.
Proof.
  intros Hfg HB HA. rewrite <- HA. apply set_eq. intros x.
  rewrite !elem_of_newCoordSet. split.
  - intros (c & -> & Hc). exists (g c). split; [by rewrite Hfg|].
    apply (elem_of_list_to_set (C:=gset coord)). rewrite <- HB.
    apply elem_of_newCoordSet. by exists c.
  - intros (b & -> & Hb). apply (elem_of_list_to_set (C:=gset coord)) in Hb.
    rewrite <- HB in Hb. apply elem_of_newCoordSet in Hb as (c & -> & Hc).
    exists c. by rewrite Hfg.
Qed.

Lemma iso_transitive_core (A B C : list coord) ijk1 ijk2 r1 r2 P :
  origin_translated (list_to_set C) ->
  reflectPoints C = [P.1.1; P.1.2; P.2] ->
  ijk1 ∈ permutations3 -> ijk2 ∈ permutations3 ->
  newCoordSet (map_all ijk2 (permute3 ijk2 P) r2) C = list_to_set B ->
  newCoordSet (map_all ijk1 (permute3 ijk1 (permute3 ijk2 P)) r1) B
    = list_to_set A ->
  newCoordSet (map_all (compose3 ijk1 ijk2) (permute3 (compose3 ijk1 ijk2) P)
                 (compose_flags ijk1 r1 r2)) C
  = list_to_set A.
Proof.
  intros _ _ H1 _ HB HA.
  eapply newCoordSet_compose; [|exact HB|exact HA].
  intros c. by apply map_all_compose.
Qed.

Lemma check_all_trans (A B C : list coord) :
  origin_translated (list_to_set C) ->
  check_all_isomorphism A B = Some true ->
  check_all_isomorphism B C = Some true ->
  check_all_isomorphism A C = Some true.
Proof.
  intros Horig HAB HBC.
  destruct (reflectPoints_triple C (origin_translated_nonempty C Horig))
    as (P & HP & _).
  destruct (proj1 (check_all_true_iff B C P HP) HBC) as (ijk2 & r2 & H2 & HB).
  destruct (iso_symmetric_core B C ijk2 r2 P Horig HP H2 HB) as [HPB _].
  destruct (proj1 (check_all_true_iff A B (permute3 ijk2 P) HPB) HAB)
    as (ijk1 & r1 & H1 & HA).
  apply (check_all_true_iff A C P HP).
  exists (compose3 ijk1 ijk2), (compose_flags ijk1 r1 r2).
  split; [by apply compose3_permutations3|].
  by apply (iso_transitive_core A B C).
Qed.

Lemma check_poly_trans (A B C : list coord) :
  origin_translated (list_to_set C) ->
  check_poly_isomorphism A B = Some true ->
  check_poly_isomorphism B C = Some true ->
  check_poly_isomorphism A C = Some true.
Proof.
  intros Horig HAB HBC.
  destruct (reflectPoints_triple C (origin_translated_nonempty C Horig))
    as (P & HP & _).
  destruct (proj1 (check_poly_true_iff B C P HP) HBC) as (ij2 & r2 & H2 & HB).
  pose proof (permutations2_in_3 ij2 H2) as H2'.
  destruct (iso_symmetric_core B C _ _ P Horig HP H2' HB) as [HPB _].
  destruct (proj1 (check_poly_true_iff A B
                     (permute3 (ij2.1, ij2.2, 2) P) HPB) HAB)
    as (ij1 & r1 & H1 & HA).
  pose proof (permutations2_in_3 ij1 H1) as H1'.
  apply (check_poly_true_iff A C P HP).
  pose proof (iso_transitive_core A B C _ _ _ _ P Horig HP H1' H2' HB HA) as H.
  exists (pick (ij2.1, ij2.2, 2) ij1.1, pick (ij2.1, ij2.2, 2) ij1.2),
         (xorb r1.1 (pick (r2.1, r2.2, false) ij1.1),
          xorb r1.2 (pick (r2.1, r2.2, false) ij1.2)).
  split.
  - enum H1; enum H2; unfold permutations2; cbn; in_list.
  - rewrite <- H. enum H1; reflexivity.
Qed.

(** X11.  Each symmetry test is transitive when the last polycube
    touches the three coordinate planes from the positive side (the
    form [get_polycubes_of_size] stores): if [A] matches [B] and [B]
    matches [C], then [A] matches [C]. *)
Theorem isomorphism_transitive (A B C : list coord) :
  origin_translated (list_to_set C) ->
  (check_all_isomorphism A B = Some true ->
   check_all_isomorphism B C = Some true ->
   check_all_isomorphism A C = Some true)
  /\ (check_poly_isomorphism A B = Some true ->
      check_poly_isomorphism B C = Some true ->
      check_poly_isomorphism A C = Some true).
Proof.
  intros H. split; [by apply check_all_trans|by apply check_poly_trans].
Qed.

Lemma isomorphism_transitive_witness :
  check_all_isomorphism [(0, 0, 0)%Z; (0, 1, 0)%Z] [(0, 0, 0)%Z; (0, 0, 1)%Z]
  = Some true.
Proof.
  refine (proj1 (isomorphism_transitive
            [(0, 0, 0)%Z; (0, 1, 0)%Z] [(0, 0, 0)%Z; (1, 0, 0)%Z]
            [(0, 0, 0)%Z; (0, 0, 1)%Z] _) _ _).
  - intros i Hi. destruct i as [|[|[|i]]]; [| | |lia];
      (split; [exists (0, 0, 0)%Z; split;
                 [apply elem_of_list_to_set; by left|done]|]);
      intros c Hc; apply elem_of_list_to_set in Hc; enum Hc; simpl; lia.
  - vm_compute. reflexivity.
  - vm_compute. reflexivity.
Defined.

Lemma size_image (f : coord -> coord) (l : list coord) :
  (forall a b, f a = f b -> a = b) ->
  size (newCoordSet f l) = size (list_to_set l : gset coord).
Proof.
  intros Hinj. set (X := list_to_set l : gset coord).
  assert (newCoordSet f l = list_to_set (map f (elements X))) as ->.
  { apply set_eq. intros c.
    rewrite elem_of_newCoordSet, elem_of_list_to_set, elem_of_list_map.
    split; intros (q & -> & Hq); exists q; (split; [done|]).
    - apply elem_of_elements. unfold X. by apply elem_of_list_to_set.
    - apply elem_of_elements in Hq. unfold X in Hq.
      by apply elem_of_list_to_set in Hq. }
  rewrite size_list_to_set.
  - by rewrite length_map.
  - apply (NoDup_fmap_2_strong f); [|apply NoDup_elements].
    intros a b _ _. apply Hinj.
Qed.

Lemma map_all_injective ijk abc r a b :
  ijk ∈ permutations3 -> map_all ijk abc r a = map_all ijk abc r b -> a = b.
Proof.
  intros H Heq. rewrite <- (map_all_inv ijk r abc a H), Heq.
  by apply map_all_inv.
Qed.

(** X12.  Two polycubes that either symmetry test accepts have the
    same number of distinct cubes. *)
Theorem isomorphic_same_size (A B : list coord) :
  (check_all_isomorphism A B = Some true ->
   size (list_to_set A : gset coord) = size (list_to_set B : gset coord))
  /\ (check_poly_isomorphism A B = Some true ->
      size (list_to_set A : gset coord) = size (list_to_set B : gset coord)).
Proof.
  split; intros H.
  - destruct (reflectPoints_triple B (check_true_nonempty_all A B H))
      as (P & HP & _).
    destruct (proj1 (check_all_true_iff A B P HP) H) as (ijk & r & Hijk & <-).
    apply size_image. intros a b. by apply map_all_injective.
  - destruct (reflectPoints_triple B (check_true_nonempty_poly A B H))
      as (P & HP & _).
    destruct (proj1 (check_poly_true_iff A B P HP) H) as (ij & r & Hij & <-).
    apply size_image. intros a b. apply map_all_injective.
    by apply permutations2_in_3.
Qed.

Lemma isomorphic_same_size_witness :
  size (list_to_set [(0, 0, 0)%Z; (1, 0, 0)%Z] : gset coord)
  = size (list_to_set [(0, 0, 0)%Z; (0, 0, 1)%Z] : gset coord).
Proof.
  refine (proj1 (isomorphic_same_size
            [(0, 0, 0)%Z; (1, 0, 0)%Z] [(0, 0, 0)%Z; (0, 0, 1)%Z]) _).
  vm_compute. reflexivity.
Defined.

(** ** [convert_to_decimal] *)

Lemma append_cons c s1 s2 : String c s1 +:+ s2 = String c (s1 +:+ s2).
Proof. reflexivity. Qed.


Lemma chars_app s1 s2 : chars (s1 +:+ s2) = chars s1 ++ chars s2.
Proof.
  unfold chars. induction s1 as [|c s1 IH]; [done|].
  rewrite append_cons. cbn [String.list_ascii_of_string app]. by rewrite IH.
Qed.














(** ** The enumeration over the box *)

Lemma digits5_in_box x : x < 125 -> in_box (digits5 x).
Proof.
  intros Hx. unfold in_box, digits5. cbn [fst snd].
  assert (x / 25 < 5) by (apply Nat.Div0.div_lt_upper_bound; lia).
  assert (x / 5 mod 5 < 5) by (apply Nat.mod_upper_bound; lia).
  assert (x mod 5 < 5) by (apply Nat.mod_upper_bound; lia).
  lia.
Qed.

Lemma small_Z_cases (z : Z) :
  (0 <= z <= 4)%Z -> z = 0%Z \/ z = 1%Z \/ z = 2%Z \/ z = 3%Z \/ z = 4%Z.
Proof. lia. Qed.

Lemma digits5_surj c : in_box c -> exists x, x < 125 /\ digits5 x = c.
Proof.
  destruct c as [[a b] d]. intros (Ha & Hb & Hd). cbn [fst snd] in *.
  exists (Z.to_nat (25 * a + 5 * b + d)). split; [lia|].
  apply small_Z_cases in Ha, Hb, Hd.
  destruct Ha as [->|[->|[->|[->| ->]]]];
    destruct Hb as [->|[->|[->|[->| ->]]]];
    destruct Hd as [->|[->|[->|[->| ->]]]]; reflexivity.
Qed.

(** X15.  Decoding a rank below [125] through [convert_to_decimal],
    [zfill] and [int] never raises, and it is a bijection from the
    ranks [0 .. 124] onto the cells of the 5 by 5 by 5 box. *)
Theorem decode_rank_bijection :
  (forall x, x < 125 -> exists c, decode_rank x = Some c /\ in_box c)
  /\ (forall x y c, x < 125 -> y < 125 ->
        decode_rank x = Some c -> decode_rank y = Some c -> x = y)
  /\ (forall c, in_box c -> exists x, x < 125 /\ decode_rank x = Some c).
Proof.
  split_and!.
  - intros x Hx. exists (digits5 x).
    split; [by apply decode_rank_total|by apply digits5_in_box].
  - intros x y c Hx Hy. rewrite !decode_rank_total by done.
    intros H1 H2. apply digits5_inj. congruence.
  - intros c Hc. destruct (digits5_surj c Hc) as (x & Hx & <-).
    exists x. split; [done|by apply decode_rank_total].
Qed.

Lemma decode_rank_bijection_witness :
  exists c, decode_rank 7 = Some c /\ in_box c.
Proof. apply (proj1 decode_rank_bijection 7). lia. Defined.

Section subset_enum.
Context {X : Type} `{Countable X} (phi : nat -> X) (m : nat).
Hypothesis phi_inj : forall j j', j < m -> j' < m -> phi j = phi j' -> j = j'.




End subset_enum.

Lemma raw_coordinates_spec k r :
  (r < binom 125 k)%N ->
  raw_coordinates k r = Some (map digits5 (unrank_from k 125 r)).
Proof.
  intros Hr. unfold raw_coordinates. rewrite unrank_kSubset_eq.
  destruct (unrank_from_spec k 125 r Hr) as (_ & Hall & _ & _).
  apply mapM_total. intros x Hx. rewrite Forall_forall in Hall.
  by apply decode_rank_total, Hall.
Qed.






(** X17.  For size [0] and for every size above [125] the enumeration
    returns the empty catalog, without raising. *)
Theorem get_polycubes_of_size_degenerate (k : nat) :
  k = 0 \/ 125 < k -> get_polycubes_of_size k = Some [].
Proof.
  intros [->|Hk].
  - vm_compute. reflexivity.
  - unfold get_polycubes_of_size. by rewrite binom_small by lia.
Qed.

Lemma get_polycubes_of_size_degenerate_witness :
  get_polycubes_of_size 126 = Some [].
Proof. apply get_polycubes_of_size_degenerate. right. lia. Defined.

Lemma candidate_raw k r :
  candidate k r
  = (coordinates ← raw_coordinates k r;
     regions ← num_regions coordinates;
     if decide (regions <> 1) then Some None
     else coordinates ← translate coordinates; Some (Some coordinates)).
Proof. reflexivity. Qed.

Lemma translate_in_box cs c :
  Forall in_box cs -> translate cs = Some c -> Forall in_box c.
Proof.
  intros Hcs. unfold translate.
  destruct (np_min (map (fun x : coord => x.1.1) cs)) as [mx|] eqn:Hx; [|done].
  destruct (np_min (map (fun x : coord => x.1.2) cs)) as [my|] eqn:Hy; [|done].
  destruct (np_min (map (fun x : coord => x.2) cs)) as [mz|] eqn:Hz; [|done].
  cbn [mbind option_bind]. intros [= <-].
  apply np_min_spec in Hx as [(cx & Hcx & Hmx) Hallx].
  apply np_min_spec in Hy as [(cy & Hcy & Hmy) Hally].
  apply np_min_spec in Hz as [(cz & Hcz & Hmz) Hallz].
  rewrite Forall_forall in Hcs.
  pose proof (Hcs cx Hcx) as (Bx & _ & _).
  pose proof (Hcs cy Hcy) as (_ & By & _).
  pose proof (Hcs cz Hcz) as (_ & _ & Bz).
  apply Forall_forall. intros q (x & -> & Hxin)%elem_of_list_map.
  pose proof (Hcs x Hxin) as (B1 & B2 & B3).
  specialize (Hallx x Hxin). specialize (Hally x Hxin). specialize (Hallz x Hxin).
  unfold in_box. cbn [fst snd]. lia.
Qed.

Lemma candidate_in_box k r c :
  (r < binom 125 k)%N -> candidate k r = Some (Some c) -> Forall in_box c.
Proof.
  intros Hr. rewrite candidate_raw, raw_coordinates_spec by done.
  cbn [mbind option_bind]. rewrite num_regions_total. cbn [mbind option_bind].
  destruct (decide (_ <> 1)); [done|].
  destruct (translate _) as [c'|] eqn:Htr; [|done].
  cbn [mbind option_bind]. intros [= <-].
  apply (translate_in_box (map digits5 (unrank_from k 125 r))); [|done].
  destruct (unrank_from_spec k 125 r Hr) as (_ & Hall & _ & _).
  apply Forall_forall. intros q (x & -> & Hx)%elem_of_list_map.
  rewrite Forall_forall in Hall. by apply digits5_in_box, Hall.
Qed.

Lemma get_polycubes_catalog k L :
  get_polycubes_of_size k = Some L -> canonical_catalog k (binom 125 k) L.
Proof.
  unfold get_polycubes_of_size, py_range. intros HL.
  destruct (enumeration_loop k (N.to_nat (binom 125 k))) as (L' & HL' & Hcat);
    [lia|].
  rewrite N2Nat.id in Hcat. congruence.
Qed.

(** X18.  Every polycube of a returned catalog lies inside the 5 by 5
    by 5 box: a shape longer than five cubes along an axis is never
    listed. *)
Theorem catalog_inside_box k L :
  get_polycubes_of_size k = Some L ->
  forall p, p ∈ L -> Forall in_box p.
Proof.
  intros HL p Hp.
  destruct (get_polycubes_catalog k L HL) as (_ & _ & rs & _ & Hlt & Hcand & _).
  apply list_elem_of_lookup in Hp as [i Hi].
  destruct (Forall2_lookup_r _ _ _ _ _ Hcand Hi) as (r & Hr & Hc).
  apply (candidate_in_box k r); [|done].
  rewrite Forall_forall in Hlt. apply Hlt, list_elem_of_lookup. eauto.
Qed.

Lemma catalog_inside_box_witness :
  Forall in_box [(0, 0, 0)%Z].
Proof.
  apply (catalog_inside_box 1 [[(0, 0, 0)%Z]] catalog_of_size_1). by left.
Defined.



(** ** More on [checkTree] and [brute_force_trees] *)

Lemma fill_fail n l : forall A,
  well_shaped n A ->
  ~ Forall (fun e : edge_t => e.1 < n /\ e.2 < n) l ->
  foldlM set_entry A l = None.
Proof.
  induction l as [|e l IH]; intros A HA Hl.
  - destruct Hl. constructor.
  - cbn [foldlM].
    destruct (decide (e.1 < n /\ e.2 < n)) as [[H1 H2]|Hbad].
    + destruct (set_entry_spec n A e HA H1 H2) as (A1 & -> & HA1 & _).
      cbn [mbind option_bind]. apply IH; [done|].
      intros Hl'. apply Hl. by constructor.
    + destruct HA as [Hlen Hrows]. unfold set_entry.
      destruct (A !! e.1) as [row|] eqn:Hrow; [|done].
      cbn [mbind option_bind].
      assert (e.1 < n) by (apply lookup_lt_Some in Hrow; lia).
      assert (length row = n) as Hrl.
      { rewrite Forall_forall in Hrows. apply Hrows, list_elem_of_lookup. eauto. }
      rewrite (proj2 (lookup_ge_None row e.2)) by lia. done.
Qed.

Lemma checkTree_None_iff (l : list edge_t) n :
  checkTree l n = None
  <-> n = 0 \/ exists e, e ∈ l /\ (n <= e.1 \/ n <= e.2).
Proof.
  destruct (decide (Forall (fun e : edge_t => e.1 < n /\ e.2 < n) l)) as [Hl|Hl].
  - rewrite checkTree_spec by done. unfold is_tree. cbn [order edges_graph].
    destruct (decide (n = 0)) as [->|Hn].
    + split; [by left|done].
    + split; [done|]. intros [?|(e & He & Hbad)]; [done|].
      rewrite Forall_forall in Hl. specialize (Hl e He). lia.
  - unfold checkTree. rewrite (fill_fail n l _ (zeros_well_shaped n) Hl).
    split; [|done]. intros _. right.
    apply not_Forall_Exists in Hl; [|apply _].
    apply Exists_exists in Hl as (e & He & Hbad). exists e. split; [done|].
    simpl in Hbad. lia.
Qed.

(** X20.  [checkTree] raises in exactly two cases: there is no node
    at all, or some edge has an endpoint that is not a node
    [0 .. n-1]. *)
Theorem checkTree_raises_iff (l : list edge_t) (n : nat) :
  checkTree l n = None
  <-> n = 0 \/ exists e, e ∈ l /\ (n <= e.1 \/ n <= e.2).
Proof. apply checkTree_None_iff. Qed.

Lemma checkTree_raises_iff_witness :
  checkTree [(0, 1); (1, 3)] 3 = None.
Proof.
  apply (proj2 (checkTree_raises_iff [(0, 1); (1, 3)] 3)).
  right. exists (1, 3). split; [apply elem_of_cons; right; by left|].
  right. simpl. lia.
Defined.

Lemma has_edge_bool (l : list edge_t) i j :
  bool_decide ((i, j) ∈ l) || bool_decide ((j, i) ∈ l) = true <-> has_edge l i j.
Proof.
  unfold has_edge. by rewrite orb_true_iff, !bool_decide_eq_true.
Qed.

Lemma checkTree_same_edges (l l' : list edge_t) n :
  (forall a b, has_edge l a b <-> has_edge l' a b) ->
  checkTree l n = checkTree l' n.
Proof.
  intros H.
  assert (forall k k' : list edge_t,
            (forall a b, has_edge k a b -> has_edge k' a b) ->
            Forall (fun e : edge_t => e.1 < n /\ e.2 < n) k' ->
            Forall (fun e : edge_t => e.1 < n /\ e.2 < n) k) as Hrange.
  { intros k k' Hkk Hk'. rewrite Forall_forall in Hk'. apply Forall_forall.
    intros [a b] Hab. destruct (Hkk a b) as [Hin|Hin]; [by left|..];
      specialize (Hk' _ Hin); cbn [fst snd] in *; lia. }
  destruct (decide (Forall (fun e : edge_t => e.1 < n /\ e.2 < n) l)) as [Hl|Hl].
  - assert (Forall (fun e : edge_t => e.1 < n /\ e.2 < n) l') as Hl'
      by (apply (Hrange l' l); [intros a b; apply H|done]).
    rewrite !checkTree_spec by done. apply is_tree_ext; [done|].
    intros i j. cbn [edge edges_graph]. apply eq_true_iff_eq.
    rewrite !has_edge_bool. apply H.
  - assert (~ Forall (fun e : edge_t => e.1 < n /\ e.2 < n) l') as Hl'.
    { intros Hl'. apply Hl. apply (Hrange l l'); [intros a b; apply H|done]. }
    unfold checkTree.
    by rewrite !(fill_fail n _ _ (zeros_well_shaped n)) by done.
Qed.

(** X21.  [checkTree] depends on the undirected edges only: two edge
    lists that join the same pairs of nodes, in whatever order,
    orientation and multiplicity, get the same answer, the exception
    included. *)
Theorem checkTree_edge_set_only (l l' : list edge_t) (n : nat) :
  (forall a b, has_edge l a b <-> has_edge l' a b) ->
  checkTree l n = checkTree l' n.
Proof. apply checkTree_same_edges. Qed.

Lemma checkTree_edge_set_only_witness :
  checkTree [(0, 1); (1, 2)] 3 = checkTree [(2, 1); (1, 0); (1, 2)] 3.
Proof.
  apply checkTree_edge_set_only. intros a b. unfold has_edge.
  rewrite !elem_of_cons, !elem_of_nil.
  split; intros [H|H]; repeat destruct H as [H|H]; try done;
    injection H as -> ->; tauto.
Defined.

(** X22.  With fewer than [n - 1] edges [brute_force_trees] returns no
    tree and never looks at the edges; for one node it returns the
    single empty tree, and for no node the empty list. *)
Theorem brute_force_trees_degenerate (n : nat) (E : list edge_t) :
  (length E < n - 1 -> brute_force_trees n E = Some [])
  /\ brute_force_trees 1 E = Some [[]]
  /\ brute_force_trees 0 E = Some [].
Proof.
  split_and!; [|reflexivity|reflexivity].
  intros H. unfold brute_force_trees. destruct n as [|n']; [done|].
  by rewrite binom_small by lia.
Qed.

Lemma brute_force_trees_degenerate_witness :
  brute_force_trees 4 [(0, 1); (1, 2)] = Some [].
Proof. apply brute_force_trees_degenerate. simpl. lia. Defined.

Lemma countdown_spec m :
  decreasing (reverse (seq 0 m))
  /\ Forall (fun j => j < m) (reverse (seq 0 m))
  /\ rank_of (reverse (seq 0 m)) = 0%N
  /\ length (reverse (seq 0 m)) = m.
Proof.
  induction m as [|m (Hdec & Hall & Hrk & Hlen)]; [repeat constructor|].
  rewrite seq_S, reverse_snoc. cbn [plus]. split_and!.
  - constructor; [done|]. exact Hall.
  - constructor; [lia|]. eapply Forall_impl; [exact Hall|]. simpl. lia.
  - cbn [rank_of length]. rewrite Hlen, Hrk, binom_small by lia. done.
  - simpl. by rewrite Hlen.
Qed.

Lemma unrank_full m : unrank_kSubset 0 m m = reverse (seq 0 m).
Proof.
  destruct (countdown_spec m) as (Hdec & Hall & Hrk & Hlen).
  destruct (rank_of_spec _ m Hdec Hall) as [_ Hun].
  rewrite Hrk, Hlen in Hun. by rewrite unrank_kSubset_eq.
Qed.

Lemma edge_of_rotation (E' : list edge_t) x :
  map (edge_of (E' ++ [x])) (seq 0 (S (length E'))) = x :: E'.
Proof.
  assert (length (E' ++ [x]) = S (length E')) as Hlen
    by (rewrite length_app; simpl; lia).
  cbn [seq map]. f_equal.
  - unfold edge_of. rewrite Hlen, edge_index_spec by lia.
    replace (S (length E') - 1) with (length E') by lia.
    by rewrite list_lookup_middle.
  - apply list_eq. intros i.
    change (map ?f ?l) with (f <$> l). rewrite list_lookup_fmap.
    destruct (decide (i < length E')) as [Hi|Hi].
    + rewrite lookup_seq_lt by done. cbn [fmap option_fmap option_map].
      unfold edge_of. rewrite Hlen, edge_index_spec by lia. cbn [plus].
      rewrite lookup_app_l by done.
      destruct (lookup_lt_is_Some_2 E' i Hi) as [e ->]. done.
    + rewrite (proj2 (lookup_ge_None (seq 1 (length E')) i))
        by (rewrite length_seq; lia).
      by rewrite (proj2 (lookup_ge_None E' i)) by lia.
Qed.

Lemma has_edge_rotation (E' : list edge_t) x a b :
  has_edge (x :: E') a b <-> has_edge (E' ++ [x]) a b.
Proof.
  unfold has_edge. rewrite !elem_of_cons, !elem_of_app, !list_elem_of_singleton.
  tauto.
Qed.

Lemma brute_force_full (n : nat) (E' : list edge_t) x :
  length (E' ++ [x]) = n - 1 ->
  brute_force_trees n (E' ++ [x])
  = t ← checkTree (E' ++ [x]) n; Some (if t : bool then [x :: E'] else []).
Proof.
  intros Hlen.
  assert (length (E' ++ [x]) = S (length E')) as Hl
    by (rewrite length_app; simpl; lia).
  unfold brute_force_trees. destruct n as [|n']; [lia|].
  replace (S n' - 1) with (S (length E')) by lia. rewrite Hl, binom_diag.
  change (py_range 1) with [0%N]. cbn [foldlM]. unfold brute_force_step.
  replace (S n' - 1) with (S (length E')) by lia. rewrite Hl, unrank_full.
  unfold edge_subset. rewrite reverse_involutive.
  rewrite (mapM_total _ (edge_of (E' ++ [x]))).
  2:{ intros j Hj%elem_of_seq.
      by destruct (py_index_edge (E' ++ [x]) j ltac:(lia)) as [? _]. }
  rewrite edge_of_rotation. cbn [mbind option_bind].
  rewrite (checkTree_same_edges (x :: E') (E' ++ [x]))
    by (intros a b; apply has_edge_rotation).
  by destruct (checkTree (E' ++ [x]) (S n')) as [[]|].
Qed.

(** X23.  With exactly [n - 1] edges there is one candidate: all the
    edges, the last one moved to the front, since the subset element
    [0] is read as [E[-1]].  It is returned when [checkTree] accepts
    the edges, and an exception of [checkTree] is passed on. *)
Theorem brute_force_trees_single_subset (n : nat) (E' : list edge_t) x :
  length (E' ++ [x]) = n - 1 ->
  brute_force_trees n (E' ++ [x])
  = t ← checkTree (E' ++ [x]) n; Some (if t : bool then [x :: E'] else []).
Proof. apply brute_force_full. Qed.

Lemma brute_force_trees_single_subset_witness :
  brute_force_trees 4 ([(0, 1); (1, 2)] ++ [(2, 3)])
  = Some [[(2, 3); (0, 1); (1, 2)]].
Proof.
  rewrite (brute_force_trees_single_subset 4 [(0, 1); (1, 2)] (2, 3)); reflexivity.
Defined.

(** ** [get_edge_list] and the driver's tree search *)

Ltac eval_digit :=
  match goal with
  | |- context [digit_of ?c] =>
      let v := eval vm_compute in (digit_of c) in change (digit_of c) with v
  end.

Lemma uint_chars_solid d :
  Forall (fun c => is_space c = false /\ Ascii.nat_of_ascii c <> 95)
    (chars (NilEmpty.string_of_uint d)).
Proof.
  induction d; cbn [NilEmpty.string_of_uint chars String.list_ascii_of_string];
    try (constructor; [by split|assumption]).
  constructor.
Qed.

Lemma int_digits_uint d : forall acc,
  int_digits acc (chars (NilEmpty.string_of_uint d)) = Some (Nat.of_uint_acc d acc).
Proof.
  induction d; intros acc;
    cbn [NilEmpty.string_of_uint chars String.list_ascii_of_string];
    [reflexivity|..];
    cbn [int_digits]; rewrite decide_False by done;
    eval_digit; cbn [mbind option_bind];
    fold (chars (NilEmpty.string_of_uint d)); rewrite IHd;
    cbn [Nat.of_uint_acc]; rewrite Nat.tail_mul_spec; f_equal; f_equal; lia.
Qed.

Lemma str_chars n :
  exists c l, chars (str n) = c :: l
    /\ Forall (fun c => is_space c = false /\ Ascii.nat_of_ascii c <> 95) (c :: l)
    /\ Ascii.nat_of_ascii c <> 43 /\ Ascii.nat_of_ascii c <> 45
    /\ int_unsigned (c :: l) = Some n.
Proof.
  unfold str. pose proof (DecimalNat.Unsigned.of_to n) as Hn.
  revert Hn. generalize (Nat.to_uint n). intros u <-.
  destruct u as [|d|d|d|d|d|d|d|d|d|d];
    [exists (Ascii.ascii_of_nat 48), []; split_and!; [done|by repeat constructor|done..]|..];
    (eexists _, (chars (NilEmpty.string_of_uint d)); split_and!;
     [reflexivity
     |constructor; [by split|apply uint_chars_solid]
     |done|done
     |cbn [int_unsigned]; eval_digit; cbn [mbind option_bind];
      rewrite int_digits_uint; reflexivity]).
Qed.

Lemma lstrip_solid l :
  Forall (fun c => is_space c = false /\ Ascii.nat_of_ascii c <> 95) l -> lstrip l = l.
Proof. intros [|c l' [Hc _] _]; [done|]. cbn [lstrip]. by rewrite Hc. Qed.

Lemma strip_solid l :
  Forall (fun c => is_space c = false /\ Ascii.nat_of_ascii c <> 95) l -> strip l = l.
Proof.
  intros H. unfold strip. rewrite (lstrip_solid l H).
  rewrite lstrip_solid by (by apply Forall_reverse).
  apply reverse_involutive.
Qed.

Lemma int_str n : int (chars (str n)) = Some (Z.of_nat n).
Proof.
  destruct (str_chars n) as (c & l & -> & Hsolid & Hp & Hm & Hint).
  unfold int. rewrite (strip_solid _ Hsolid).
  rewrite !decide_False by done. by rewrite Hint.
Qed.

Lemma split_from_solid w : forall cur l,
  Forall (fun c => is_space c = false /\ Ascii.nat_of_ascii c <> 95) w ->
  split_from cur (w ++ l) = split_from (cur ++ w) l.
Proof.
  induction w as [|c w IH]; intros cur l Hw.
  - by rewrite app_nil_r.
  - apply Forall_cons in Hw as [[Hc _] Hw]. cbn [app split_from].
    rewrite Hc, IH by done. by rewrite <- app_assoc.
Qed.

Lemma split_line a b :
  split (str a +:+ " " +:+ str b +:+ " " +:+ edge_data)
  = [chars (str a); chars (str b); chars "{'weight':"; chars "1.0}"].
Proof.
  unfold split. rewrite !chars_app.
  destruct (str_chars a) as (ca & la & Ha & Hsa & _).
  destruct (str_chars b) as (cb & lb & Hb & Hsb & _).
  rewrite split_from_solid by (by rewrite Ha).
  rewrite Ha. cbn [app]. change (chars " ") with [Ascii.ascii_of_nat 32].
  cbn [app split_from]. change (is_space (Ascii.ascii_of_nat 32)) with true. cbv iota.
  rewrite split_from_solid by (by rewrite Hb).
  rewrite Hb. cbn [app split_from]. change (is_space (Ascii.ascii_of_nat 32)) with true. cbv iota.
  reflexivity.
Qed.

Lemma get_edge_list_loop (l : list edge_t) : forall acc,
  foldlM (fun edges line =>
            let line := split line in
            s ← py_index line 0; x ← int s;
            s ← py_index line 1; y ← int s;
            Some (edges ++ [(x, y)]))
    acc (map (fun e => str e.1 +:+ " " +:+ str e.2 +:+ " " +:+ edge_data) l)
  = Some (acc ++ map (fun e : edge_t => (Z.of_nat e.1, Z.of_nat e.2)) l).
Proof.
  induction l as [|e l IH]; intros acc; cbn [map foldlM].
  - by rewrite app_nil_r.
  - cbv zeta. rewrite split_line.
    change (py_index [?a; ?b; ?c; ?d] 0) with (Some a).
    change (py_index [?a; ?b; ?c; ?d] 1) with (Some b).
    cbn [mbind option_bind]. rewrite !int_str. cbn [mbind option_bind].
    rewrite IH. by rewrite <- app_assoc.
Qed.

Lemma get_edge_list_spec G :
  get_edge_list G
  = Some (map (fun e : edge_t => (Z.of_nat e.1, Z.of_nat e.2)) (graph_edges G)).
Proof. unfold get_edge_list, generate_edgelist. by rewrite get_edge_list_loop. Qed.

Lemma graph_edges_elem G a b :
  (a, b) ∈ graph_edges G
  <-> a <= b /\ a < order G /\ b < order G /\ edge G a b = true.
Proof.
  unfold graph_edges. rewrite list_elem_of_In, filter_In, in_prod_iff, !in_seq.
  cbn [fst snd]. rewrite andb_true_iff, Nat.leb_le.
  split; intros H; split_and!; try tauto; lia.
Qed.

Lemma graph_edges_NoDup G : NoDup (graph_edges G).
Proof.
  apply NoDup_bool_filter, NoDup_list_prod; apply NoDup_seq.
Qed.

(** X24.  [get_edge_list] never raises on the lines the graph library
    writes: splitting each line and reading its first two words with
    [int] gives back the node numbers, so the result lists every edge
    of the graph once, with the smaller endpoint first. *)
Theorem get_edge_list_round_trip (G : Graph) :
  exists E : list edge_t,
    get_edge_list G = Some (map (fun e => (Z.of_nat e.1, Z.of_nat e.2)) E)
    /\ NoDup E
    /\ forall a b, (a, b) ∈ E
         <-> a <= b /\ a < order G /\ b < order G /\ edge G a b = true.
Proof.
  exists (graph_edges G). split_and!.
  - apply get_edge_list_spec.
  - apply graph_edges_NoDup.
  - apply graph_edges_elem.
Qed.







(** ** [matrix_minor] *)

Lemma wrap_mod size i :
  ~ out_of_bounds size i -> wrap size i = Z.to_nat (i mod Z.of_nat size).
Proof.
  unfold out_of_bounds, wrap. intros H. f_equal.
  destruct (decide (i < 0)%Z).
  - rewrite <- (Z.mod_small (i + Z.of_nat size) (Z.of_nat size)) by lia.
    rewrite <- (Z_mod_plus_full i 1 (Z.of_nat size)). f_equal. lia.
  - rewrite Z.mod_small; lia.
Qed.

Lemma wrap_lt size i : ~ out_of_bounds size i -> wrap size i < size.
Proof. unfold out_of_bounds, wrap. intros H. destruct (decide (i < 0)%Z); lia. Qed.

Lemma lookup_delete_skip {X : Type} (l : list X) k i :
  delete k l !! i = l !! skip k i.
Proof.
  unfold skip. destruct (decide (i < k)).
  - by apply list_lookup_delete_lt.
  - apply list_lookup_delete_ge. lia.
Qed.

Lemma width_rows {X : Type} (A : list (list X)) m :
  A <> [] -> Forall (fun row => length row = m) A -> width A = m.
Proof.
  intros HA Hrows. destruct A as [|row A]; [done|].
  by apply Forall_cons in Hrows as [? _].
Qed.

Lemma matrix_minor_eq {X : Type} (A : list (list X)) (m : nat) (r c : Z) :
  Forall (fun row => length row = m) A ->
  matrix_minor A r c
  = if decide (out_of_bounds (length A) r \/ out_of_bounds m c) then None
    else Some (map (delete (wrap m c)) (delete (wrap (length A) r) A)).
Proof.
  intros Hrows. unfold matrix_minor, delete_row.
  destruct (decide (out_of_bounds (length A) r)) as [Hr|Hr].
  - by rewrite decide_True by (by left).
  - cbn [mbind option_bind].
    assert (A <> []) as HA.
    { intros ->. apply Hr. unfold out_of_bounds. simpl. lia. }
    rewrite (width_rows A m HA Hrows). unfold delete_column.
    destruct (decide (out_of_bounds m c)) as [Hc|Hc].
    + by rewrite decide_True by (by right).
    + by rewrite decide_False by tauto.
Qed.

(** X26.  On a matrix of [n] rows and [m] columns, [matrix_minor]
    raises exactly when the row index lies outside [-n .. n-1] or the
    column index outside [-m .. m-1].  Otherwise the result has [n - 1]
    rows and [m - 1] columns and holds the entries of the matrix in
    their order, without those of row [r mod n] and of column
    [c mod m]. *)
Theorem matrix_minor_spec {X : Type} (A : list (list X)) (n m : nat) (r c : Z) :
  length A = n -> Forall (fun row => length row = m) A ->
  (matrix_minor A r c = None
   <-> ~ (- Z.of_nat n <= r < Z.of_nat n)%Z \/ ~ (- Z.of_nat m <= c < Z.of_nat m)%Z)
  /\ forall B, matrix_minor A r c = Some B ->
       length B = n - 1
       /\ Forall (fun row => length row = m - 1) B
       /\ forall i j,
            (B !! i ≫= fun row => row !! j)
            = (A !! skip (Z.to_nat (r mod Z.of_nat n)) i
               ≫= fun row => row !! skip (Z.to_nat (c mod Z.of_nat m)) j).
Proof.
  intros Hlen Hrows. rewrite (matrix_minor_eq A m r c Hrows), Hlen.
  destruct (decide (out_of_bounds n r \/ out_of_bounds m c)) as [Hout|Hin].
  - split; [|done]. split; [|done]. intros _.
    unfold out_of_bounds in Hout. lia.
  - assert (~ out_of_bounds n r) as Hr by tauto.
    assert (~ out_of_bounds m c) as Hc by tauto.
    split.
    + split; [done|]. unfold out_of_bounds in Hr, Hc. lia.
    + intros B [= <-]. pose proof (wrap_lt n r Hr) as Hrn.
      pose proof (wrap_lt m c Hc) as Hcm. split_and!.
      * rewrite length_map, length_delete; [lia|].
        apply lookup_lt_is_Some_2. lia.
      * apply Forall_forall. intros row' (row & -> & Hrow)%elem_of_list_map.
        assert (length row = m) as Hrl.
        { rewrite Forall_forall in Hrows. apply Hrows.
          apply list_elem_of_lookup in Hrow as [i Hi].
          rewrite lookup_delete_skip in Hi. apply list_elem_of_lookup. eauto. }
        rewrite length_delete; [lia|]. apply lookup_lt_is_Some_2. lia.
      * intros i j. rewrite <- (wrap_mod n r Hr), <- (wrap_mod m c Hc).
        change (map ?f ?l) with (f <$> l). rewrite list_lookup_fmap.
        rewrite lookup_delete_skip.
        destruct (A !! skip (wrap n r) i) as [row|]; [|done].
        cbn [fmap option_fmap option_map mbind option_bind].
        apply lookup_delete_skip.
Qed.

Lemma matrix_minor_spec_witness :
  matrix_minor [[1; 2; 3]; [4; 5; 6]; [7; 8; 9]] (-1) 1 = Some [[1; 3]; [4; 6]]
  /\ length [[1; 3]; [4; 6]] = 3 - 1.
Proof.
  split; [reflexivity|].
  apply (proj2 (matrix_minor_spec [[1; 2; 3]; [4; 5; 6]; [7; 8; 9]] 3 3 (-1) 1
                  eq_refl ltac:(by repeat constructor)) [[1; 3]; [4; 6]] eq_refl).
Defined.
